(** * deep-explore-buddy: the deep-research agent loop

    A shallow embedding of [supabase/functions/deep-research/index.ts]:
    the truncation helper, the two Tavily adapters, the policy client
    [getAgentAction] and the agent loop run by the stream's [start]
    callback, followed by the properties the specification states about
    them.

    Conventions of the embedding.
    - A JavaScript string is a [string]; one character stands for one
      UTF-16 code unit, so [String.length] is [.length].
    - Counters ([step], [failedAttempts], lengths, sizes) are [nat]; the
      [maxTokens] argument of [truncateToTokens], an integer count at
      every call, is a [Z], because the function is total on negative
      numbers too.
    - Values are read at their declared TypeScript types.  The decision
      of the policy comes from [JSON.parse] through an unchecked cast:
      its action tag is any string and each payload may be absent.
    - The external services (the text-generation gateway, Tavily search
      and Tavily extract) are functions of an abstract world state, which
      they may change; everything the code does with their replies is
      modelled.
    - The code awaits every call before the next one, so one run is a
      sequential computation.  It produces a trace of observable effects:
      the events enqueued on the stream, the calls made to the services,
      the inter-step delays and the closing of the stream.
    - The consumer does not cancel the stream: [controller.enqueue] and
      [controller.close] do not throw. *)

From Stdlib Require Import List String Ascii ZArith Arith Bool Lia.
From Stdlib Require Import DecimalString Sorted.
Import ListNotations.

Local Open Scope string_scope.
Local Open Scope list_scope.

Set Implicit Arguments.

(** ** JavaScript primitives used by the code *)

Module Js.

(** [s.substring(start, end)]: both indices are clamped to
    [0 .. s.length] and swapped when [start > end]. *)
Definition clamp (s : string) (i : Z) : nat :=
  Nat.min (Z.to_nat i) (String.length s).

Definition substring (s : string) (start finish : Z) : string :=
  let a := clamp s start in
  let b := clamp s finish in
  String.substring (Nat.min a b) (Nat.max a b - Nat.min a b) s.

(** [xs.join(sep)] on an array of strings. *)
Definition join (sep : string) (xs : list string) : string :=
  String.concat sep xs.

(** [`${n}`] for a non-negative integer. *)
Definition of_nat (n : nat) : string :=
  NilEmpty.string_of_uint (Nat.to_uint n).

(** Truthiness of a string: only [''] is falsy. *)
Definition truthy (s : string) : bool :=
  negb (String.eqb s EmptyString).

(** Truthiness of an optional string: [null], [undefined] and ['']
    are falsy. *)
Definition truthy_opt (a : option string) : bool :=
  match a with
  | Some s => truthy s
  | None => false
  end.

(** [a || b] on optional strings. *)
Definition or_else (a b : option string) : option string :=
  if truthy_opt a then a else b.

(** [a || ''] on an optional string. *)
Definition or_empty (a : option string) : string :=
  match a with
  | Some s => if truthy s then s else EmptyString
  | None => EmptyString
  end.

(** The double quote and the line feed, for the message templates. *)
Definition dq : string := String "034"%char EmptyString.
Definition nl : string := String "010"%char EmptyString.

(** A [Set<string>]: the elements in insertion order, each once. *)
Module StrSet.
Definition t := list string.
Definition empty : t := [].
Definition has (s : t) (x : string) : bool :=
  existsb (String.eqb x) s.
Definition add (s : t) (x : string) : t :=
  if has s x then s else s ++ [x].
Definition size (s : t) : nat := List.length s.
End StrSet.

(** [xs.includes(x)] on an array of strings. *)
Definition includes (xs : list string) (x : string) : bool :=
  existsb (String.eqb x) xs.

(** [xs.slice(0, n)] for [n >= 0]. *)
Definition slice0 {A} (n : nat) (xs : list A) : list A := firstn n xs.

End Js.

(** ** Configuration *)

Definition MAX_STEPS : nat := 25.
Definition MAX_FAILED_ATTEMPTS : nat := 3.
Definition MAX_URLS_PER_STEP : nat := 3.
Definition MAX_SEARCH_RESULTS : nat := 5.

(** ** Helper functions *)

Definition truncateToTokens (text : string) (maxTokens : Z) : string :=
  let maxChars := (maxTokens * 4)%Z in
  if (Z.of_nat (String.length text) <=? maxChars)%Z then text
  else (Js.substring text 0 maxChars ++ "...")%string.

(** ** Types *)

Module SearchResult.
Record t := mk {
  title : string;
  url : string;
  content : string
}.
End SearchResult.

Module KnowledgeItem.
Inductive kind := search | url | reflection.
Record t := mk {
  question : string;
  answer : string;
  sources : list string;
  type : kind
}.
End KnowledgeItem.

Module GapQuestion.
Record t := mk {
  question : string;
  priority : Z;
  reason : string
}.
End GapQuestion.

Module AgentState.
Record t := mk {
  originalQuestion : string;
  currentQuestion : string;
  gaps : list GapQuestion.t;
  knowledge : list KnowledgeItem.t;
  visitedUrls : Js.StrSet.t;
  searchQueries : Js.StrSet.t;
  step : nat;
  totalTokensUsed : nat;
  failedAttempts : nat
}.

(** Field assignments. *)
Definition set_currentQuestion (q : string) (s : t) : t :=
  mk (originalQuestion s) q (gaps s) (knowledge s) (visitedUrls s)
     (searchQueries s) (step s) (totalTokensUsed s) (failedAttempts s).
Definition set_gaps (g : list GapQuestion.t) (s : t) : t :=
  mk (originalQuestion s) (currentQuestion s) g (knowledge s) (visitedUrls s)
     (searchQueries s) (step s) (totalTokensUsed s) (failedAttempts s).
Definition set_knowledge (k : list KnowledgeItem.t) (s : t) : t :=
  mk (originalQuestion s) (currentQuestion s) (gaps s) k (visitedUrls s)
     (searchQueries s) (step s) (totalTokensUsed s) (failedAttempts s).
Definition set_visitedUrls (v : Js.StrSet.t) (s : t) : t :=
  mk (originalQuestion s) (currentQuestion s) (gaps s) (knowledge s) v
     (searchQueries s) (step s) (totalTokensUsed s) (failedAttempts s).
Definition set_searchQueries (q : Js.StrSet.t) (s : t) : t :=
  mk (originalQuestion s) (currentQuestion s) (gaps s) (knowledge s)
     (visitedUrls s) q (step s) (totalTokensUsed s) (failedAttempts s).
Definition set_step (n : nat) (s : t) : t :=
  mk (originalQuestion s) (currentQuestion s) (gaps s) (knowledge s)
     (visitedUrls s) (searchQueries s) n (totalTokensUsed s) (failedAttempts s).
Definition set_failedAttempts (n : nat) (s : t) : t :=
  mk (originalQuestion s) (currentQuestion s) (gaps s) (knowledge s)
     (visitedUrls s) (searchQueries s) (step s) (totalTokensUsed s) n.

(** The state a run starts from. *)
Definition init (topic : string) : t :=
  mk topic topic [] [] Js.StrSet.empty Js.StrSet.empty 0 0 0.
End AgentState.

(** The action tag is declared as a union of four literals, but the value
    comes from [JSON.parse] through an unchecked cast, and the dispatch
    compares it with [===] against each literal: it is a string here. *)
Module AgentAction.
Record t := mk {
  action : string;
  reasoning : string;
  searchQueries : option (list string);
  urlsToRead : option (list string);
  gapQuestions : option (list GapQuestion.t);
  finalAnswer : option string
}.
End AgentAction.

Module StreamEvent.
Inductive kind :=
| thinking | searching | reading | reflecting | knowledge | gap
| progress | answer | error.

Module Stats.
Record t := mk {
  totalSteps : nat;
  knowledgeItems : nat;
  urlsVisited : nat;
  searchesPerformed : nat;
  gapsInvestigated : nat
}.
End Stats.

(** The [data] payloads the loop attaches to events. *)
Inductive payload :=
| Counts (knowledgeCount gapsCount urlsVisited : nat)
| Action (action : string)
| Results (resultCount : nat) (urls : list string)
| Extracted (url : string) (contentLength : nat)
| Gap (gap : GapQuestion.t)
| Report (report : string) (stats : Stats.t).

Record t := mk {
  type : kind;
  message : string;
  data : option payload;
  step : option nat;
  totalSteps : option nat
}.

Definition kind_eqb (a b : kind) : bool :=
  match a, b with
  | thinking, thinking | searching, searching | reading, reading
  | reflecting, reflecting | knowledge, knowledge | gap, gap
  | progress, progress | answer, answer | error, error => true
  | _, _ => false
  end.
End StreamEvent.

(** ** The external services

    What the three HTTP services answer.  Each reply distinguishes the
    cases the code distinguishes. *)

(** The text-generation gateway, as [callLLM] reads it. *)
Inductive LLMReply :=
| LLMRejected (message : string)   (* [fetch] or [response.json()] throws *)
| LLMNotOk (status : nat)          (* [!response.ok] *)
| LLMContent (content : string).   (* [data.choices[0].message.content] *)

(** Tavily search, as [tavilySearch] reads it. *)
Inductive SearchReply :=
| SearchRejected                   (* [fetch] or [response.json()] throws *)
| SearchNotOk (status : nat)       (* [!response.ok] *)
| SearchData (results : option (list SearchResult.t)).  (* [data.results] *)

(** Tavily extract, as [readUrl] reads it. *)
Module ExtractResult.
Record t := mk {
  raw_content : option string;
  content : option string
}.
End ExtractResult.

Inductive ExtractReply :=
| ExtractRejected
| ExtractNotOk (status : nat)
| ExtractData (results : option (list ExtractResult.t)).

(** The two prompts sent to the gateway.  Each prompt text is a function
    of the values listed here ([buildAgentPrompt], and the template in
    [synthesizeReport]); the service is given these values themselves. *)
Inductive LLMRequest :=
| AgentPrompt (state : AgentState.t) (availableUrls : list string)
| ReportPrompt (topic : string) (knowledge : list KnowledgeItem.t).

(** The services of one deployment, over a world state [World] that every
    call may read and change.  [JSON_parse] is the runtime's [JSON.parse]
    followed by the cast [as AgentAction]: [None] when [JSON.parse]
    throws, [Some a] when it returns a value, which the code then uses as
    an [AgentAction]. *)
Record Services (World : Type) := {
  llm : LLMRequest -> World -> LLMReply * World;
  tavily_search : string -> World -> SearchReply * World;
  tavily_extract : string -> World -> ExtractReply * World;
  JSON_parse : string -> option AgentAction.t
}.

(** ** Observable effects of a run *)

Inductive Call :=
| TavilySearch (query : string)
| ReadUrl (url : string)
| GetAgentAction
| SynthesizeReport (topic : string) (knowledge : list KnowledgeItem.t).

Inductive Effect :=
| Emit (e : StreamEvent.t)    (* [sendEvent]: [controller.enqueue] *)
| Invoke (c : Call)           (* a call of one of the four async functions *)
| Delay (ms : nat)            (* [setTimeout] awaited between steps *)
| Close.                      (* [controller.close()] *)

(** ** The computation monad

    State (the [state] object, the [availableUrls] array and the world),
    exceptions, and the trace of effects. *)

Inductive Exn := JsError (message : string).

Inductive Result (A : Type) :=
| Ok (a : A)
| Throw (e : Exn)
| OutOfFuel.

Arguments Ok {A} a.
Arguments Throw {A} e.
Arguments OutOfFuel {A}.

Record Store (World : Type) := mkStore {
  state : AgentState.t;
  availableUrls : list string;
  world : World
}.

Record Outcome (World A : Type) := mkOutcome {
  result : Result A;
  store : Store World;
  trace : list Effect
}.

Definition M (World A : Type) : Type := Store World -> Outcome World A.

Section Monad.
Context {World : Type}.

Definition ret {A} (a : A) : M World A :=
  fun s => mkOutcome (Ok a) s [].

Definition bind {A B} (m : M World A) (f : A -> M World B) : M World B :=
  fun s =>
    let o := m s in
    match result o with
    | Ok a =>
        let o' := f a (store o) in
        mkOutcome (result o') (store o') (trace o ++ trace o')
    | Throw e => mkOutcome (Throw e) (store o) (trace o)
    | OutOfFuel => mkOutcome OutOfFuel (store o) (trace o)
    end.

Definition throw {A} (e : Exn) : M World A :=
  fun s => mkOutcome (Throw e) s [].

Definition out_of_fuel {A} : M World A :=
  fun s => mkOutcome OutOfFuel s [].

(** [try { m } catch (error) { h error }] *)
Definition try_catch {A} (m : M World A) (h : Exn -> M World A) : M World A :=
  fun s =>
    let o := m s in
    match result o with
    | Throw e =>
        let o' := h e (store o) in
        mkOutcome (result o') (store o') (trace o ++ trace o')
    | _ => o
    end.

Definition tell (e : Effect) : M World unit :=
  fun s => mkOutcome (Ok tt) s [e].

Definition get_state : M World AgentState.t :=
  fun s => mkOutcome (Ok (state s)) s [].

Definition modify_state (f : AgentState.t -> AgentState.t) : M World unit :=
  fun s => mkOutcome (Ok tt) (mkStore (f (state s)) (availableUrls s) (world s)) [].

Definition get_availableUrls : M World (list string) :=
  fun s => mkOutcome (Ok (availableUrls s)) s [].

Definition modify_availableUrls (f : list string -> list string) : M World unit :=
  fun s => mkOutcome (Ok tt) (mkStore (state s) (f (availableUrls s)) (world s)) [].

(** A request to a service: the world answers and moves on. *)
Definition ask {R} (srv : World -> R * World) : M World R :=
  fun s =>
    let (r, w) := srv (world s) in
    mkOutcome (Ok r) (mkStore (state s) (availableUrls s) w) [].

(** [for (const x of xs) { body x }], where [continue] ends [body x]. *)
Fixpoint for_of {A} (xs : list A) (body : A -> M World unit) : M World unit :=
  match xs with
  | [] => ret tt
  | x :: xs' => bind (body x) (fun _ => for_of xs' body)
  end.

End Monad.

Notation "x <- m ;; k" := (bind m (fun x => k))
  (at level 61, m at next level, right associativity).
Notation "m ;; k" := (bind m (fun _ => k))
  (at level 61, right associativity).

(** ** The program *)

(** How the body of the [while] loop is left. *)
Inductive Control :=
| Fallthrough   (* the end of the body is reached *)
| Continue      (* [continue] *)
| Return.       (* [return] out of [start] *)

(** [cond && payload], as it is used in the conditions of the dispatch. *)
Definition and_then {A} (cond : bool) (payload : option A) : option A :=
  if cond then payload else None.

(** The store a run on [topic] starts from. *)
Definition initial {World} (topic : string) (w : World) : Store World :=
  mkStore (AgentState.init topic) [] w.

(** [state.step < MAX_STEPS && state.failedAttempts < MAX_FAILED_ATTEMPTS] *)
Definition loop_condition (state : AgentState.t) : bool :=
  ((AgentState.step state <? MAX_STEPS)
   && (AgentState.failedAttempts state <? MAX_FAILED_ATTEMPTS))%nat.

Section Agent.
Context {World : Type} (sv : Services World).

Let M := M World.

Definition sendEvent (event : StreamEvent.t) : M unit :=
  tell (Emit event).

(** *** Tavily search *)
Definition tavilySearch (query : string) : M (list SearchResult.t) :=
  tell (Invoke (TavilySearch query));;
  reply <- ask (tavily_search sv query);;
  match reply with
  | SearchRejected => ret []
  | SearchNotOk _ => ret []
  | SearchData None => ret []
  | SearchData (Some results) =>
      ret (map (fun r =>
                  SearchResult.mk
                    (SearchResult.title r)
                    (SearchResult.url r)
                    (truncateToTokens (SearchResult.content r) 500))
               results)
  end.

(** *** URL reader *)
Definition readUrl (url : string) : M (option string) :=
  tell (Invoke (ReadUrl url));;
  reply <- ask (tavily_extract sv url);;
  match reply with
  | ExtractRejected => ret None
  | ExtractNotOk _ => ret None
  | ExtractData (Some (first :: _)) =>
      ret (Some (truncateToTokens
                   (Js.or_empty
                      (Js.or_else (ExtractResult.raw_content first)
                                  (ExtractResult.content first)))
                   2000))
  | ExtractData _ => ret None
  end.

(** *** LLM calls *)
Definition callLLM (request : LLMRequest) : M string :=
  reply <- ask (llm sv request);;
  match reply with
  | LLMRejected message => throw (JsError message)
  | LLMNotOk status =>
      throw (JsError ("LLM API failed: " ++ Js.of_nat status)%string)
  | LLMContent content => ret content
  end.

(** *** Agent decision making *)
Definition default_action (state : AgentState.t) : AgentAction.t :=
  AgentAction.mk
    "search"
    "Failed to parse previous response, trying a new search"
    (Some [AgentState.currentQuestion state])
    None None None.

Definition getAgentAction (state : AgentState.t) (availableUrls : list string)
  : M AgentAction.t :=
  tell (Invoke GetAgentAction);;
  response <- callLLM (AgentPrompt state availableUrls);;
  match JSON_parse sv response with
  | Some action => ret action
  | None => ret (default_action state)
  end.

(** *** Report synthesis *)
Definition synthesizeReport (topic : string) (knowledge : list KnowledgeItem.t)
  : M string :=
  tell (Invoke (SynthesizeReport topic knowledge));;
  callLLM (ReportPrompt topic knowledge).

(** *** Main agent loop *)

Definition event (type : StreamEvent.kind) (message : string)
    (step : option nat) (data : option StreamEvent.payload) : StreamEvent.t :=
  StreamEvent.mk type message data step None.

Definition run_stats (state : AgentState.t) : StreamEvent.Stats.t :=
  StreamEvent.Stats.mk
    (AgentState.step state)
    (List.length (AgentState.knowledge state))
    (Js.StrSet.size (AgentState.visitedUrls state))
    (Js.StrSet.size (AgentState.searchQueries state))
    (List.length (AgentState.gaps state)).

(** The body of [for (const query of action.searchQueries)]. *)
Definition search_one (query : string) : M unit :=
  state <- get_state;;
  if Js.StrSet.has (AgentState.searchQueries state) query then ret tt
  else
    modify_state (fun s =>
      AgentState.set_searchQueries
        (Js.StrSet.add (AgentState.searchQueries s) query) s);;
    results <- tavilySearch query;;
    if (0 <? List.length results)%nat then
      for_of results (fun r =>
        urls <- get_availableUrls;;
        if negb (Js.includes urls (SearchResult.url r))
        then modify_availableUrls (fun u => u ++ [SearchResult.url r])
        else ret tt);;
      modify_state (fun s =>
        AgentState.set_knowledge
          (AgentState.knowledge s ++
           [KnowledgeItem.mk
              query
              (Js.join (Js.nl ++ Js.nl)
                 (map (fun r => SearchResult.title r ++ ": "
                                ++ SearchResult.content r)%string results))
              (map SearchResult.url results)
              KnowledgeItem.search]) s);;
      state <- get_state;;
      sendEvent
        (event StreamEvent.knowledge
           ("Found " ++ Js.of_nat (List.length results) ++ " results for "
            ++ Js.dq ++ query ++ Js.dq)
           (Some (AgentState.step state))
           (Some (StreamEvent.Results (List.length results)
                    (map SearchResult.url results))))
    else ret tt.

(** The body of [for (const url of action.urlsToRead.slice(0, MAX_URLS_PER_STEP))]. *)
Definition read_one (url : string) : M unit :=
  state <- get_state;;
  if Js.StrSet.has (AgentState.visitedUrls state) url then ret tt
  else
    modify_state (fun s =>
      AgentState.set_visitedUrls
        (Js.StrSet.add (AgentState.visitedUrls s) url) s);;
    state <- get_state;;
    sendEvent
      (event StreamEvent.reading ("Reading: " ++ url)
         (Some (AgentState.step state)) None);;
    content <- readUrl url;;
    match content with
    | Some text =>
        if Js.truthy text then
          modify_state (fun s =>
            AgentState.set_knowledge
              (AgentState.knowledge s ++
               [KnowledgeItem.mk ("Content from " ++ url) text [url]
                  KnowledgeItem.url]) s);;
          state <- get_state;;
          sendEvent
            (event StreamEvent.knowledge ("Extracted content from " ++ url)
               (Some (AgentState.step state))
               (Some (StreamEvent.Extracted url (String.length text))))
        else ret tt
    | None => ret tt
    end.

(** The body of [for (const gap of action.gapQuestions)]. *)
Definition reflect_one (gap : GapQuestion.t) : M unit :=
  modify_state (fun s => AgentState.set_gaps (AgentState.gaps s ++ [gap]) s);;
  state <- get_state;;
  sendEvent
    (event StreamEvent.gap ("Gap identified: " ++ GapQuestion.question gap)
       (Some (AgentState.step state))
       (Some (StreamEvent.Gap gap))).

(** [state.gaps.some(g => g.question === state.originalQuestion)] *)
Definition has_original (state : AgentState.t) : bool :=
  existsb (fun g => String.eqb (GapQuestion.question g)
                      (AgentState.originalQuestion state))
          (AgentState.gaps state).

(** The four blocks of the [if] / [else if] chain under
    [// Execute action]. *)
Definition search_branch (searchQueries : list string) : M Control :=
  state <- get_state;;
  sendEvent
    (event StreamEvent.searching
       ("Searching: " ++ Js.join " | " searchQueries)
       (Some (AgentState.step state)) None);;
  for_of searchQueries search_one;;
  ret Fallthrough.

Definition read_branch (urlsToRead : list string) : M Control :=
  state <- get_state;;
  sendEvent
    (event StreamEvent.reading
       ("Reading " ++ Js.of_nat (List.length urlsToRead)
        ++ " sources deeply...")
       (Some (AgentState.step state)) None);;
  for_of (Js.slice0 MAX_URLS_PER_STEP urlsToRead) read_one;;
  ret Fallthrough.

Definition reflect_branch (gapQuestions : list GapQuestion.t) : M Control :=
  state <- get_state;;
  sendEvent
    (event StreamEvent.reflecting
       ("Identified " ++ Js.of_nat (List.length gapQuestions)
        ++ " knowledge gaps to investigate")
       (Some (AgentState.step state)) None);;
  for_of gapQuestions reflect_one;;
  state <- get_state;;
  (if negb (has_original state) then
     modify_state (fun s =>
       AgentState.set_gaps
         (AgentState.gaps s ++
          [GapQuestion.mk (AgentState.originalQuestion s) 1
             "Main research question"]) s)
   else ret tt);;
  ret Fallthrough.

Definition answer_branch (topic : string) : M Control :=
  state <- get_state;;
  if (List.length (AgentState.knowledge state) <? 3)%nat then
    modify_state (fun s =>
      AgentState.set_failedAttempts (S (AgentState.failedAttempts s)) s);;
    state <- get_state;;
    sendEvent
      (event StreamEvent.thinking
         "Not enough knowledge accumulated yet. Continuing research..."
         (Some (AgentState.step state)) None);;
    ret Continue
  else
    sendEvent
      (event StreamEvent.thinking
         "Synthesizing comprehensive research report..."
         (Some (AgentState.step state)) None);;
    report <- synthesizeReport topic (AgentState.knowledge state);;
    state <- get_state;;
    sendEvent
      (event StreamEvent.answer "Research complete!"
         (Some (AgentState.step state))
         (Some (StreamEvent.Report report (run_stats state))));;
    tell Close;;
    ret Return.

(** The chain itself: the first condition that holds selects the block;
    when none holds, nothing is done. *)
Definition execute (topic : string) (action : AgentAction.t) : M Control :=
  match and_then (String.eqb (AgentAction.action action) "search")
                 (AgentAction.searchQueries action) with
  | Some searchQueries => search_branch searchQueries
  | None =>
  match and_then (String.eqb (AgentAction.action action) "read")
                 (AgentAction.urlsToRead action) with
  | Some urlsToRead => read_branch urlsToRead
  | None =>
  match and_then (String.eqb (AgentAction.action action) "reflect")
                 (AgentAction.gapQuestions action) with
  | Some gapQuestions => reflect_branch gapQuestions
  | None =>
      if String.eqb (AgentAction.action action) "answer"
      then answer_branch topic
      else ret Fallthrough
  end end end.

(** [// Get current question (from gaps queue or original)] *)
Definition next_question : M unit :=
  state <- get_state;;
  if ((0 <? List.length (AgentState.gaps state))
      && (2 <? AgentState.step state))%nat
  then
    match AgentState.gaps state with
    | nextGap :: rest =>
        modify_state (AgentState.set_gaps rest);;
        modify_state (AgentState.set_currentQuestion (GapQuestion.question nextGap));;
        sendEvent
          (event StreamEvent.thinking
             ("Investigating sub-question: " ++ Js.dq
              ++ GapQuestion.question nextGap ++ Js.dq)
             (Some (AgentState.step state)) None)
    | [] => ret tt
    end
  else ret tt.

(** The body of the [while] loop up to the dispatch: the step counter,
    the progress event, the current question and the decision. *)
Definition begin_iteration : M AgentAction.t :=
  modify_state (fun s => AgentState.set_step (S (AgentState.step s)) s);;
  state <- get_state;;
  sendEvent
    (StreamEvent.mk StreamEvent.progress
       ("Research step " ++ Js.of_nat (AgentState.step state) ++ "/"
        ++ Js.of_nat MAX_STEPS)
       (Some (StreamEvent.Counts
                (List.length (AgentState.knowledge state))
                (List.length (AgentState.gaps state))
                (Js.StrSet.size (AgentState.visitedUrls state))))
       (Some (AgentState.step state))
       (Some MAX_STEPS));;
  next_question;;
  state <- get_state;;
  urls <- get_availableUrls;;
  action <- getAgentAction state
              (filter (fun u => negb (Js.StrSet.has (AgentState.visitedUrls state) u))
                      urls);;
  state <- get_state;;
  sendEvent
    (event StreamEvent.thinking (AgentAction.reasoning action)
       (Some (AgentState.step state))
       (Some (StreamEvent.Action (AgentAction.action action))));;
  ret action.

(** The rest of the body: the dispatch, and the delay unless the
    dispatch left the body by [continue] or [return]. *)
Definition finish_iteration (topic : string) (action : AgentAction.t)
  : M Control :=
  control <- execute topic action;;
  match control with
  | Fallthrough => tell (Delay 500);; ret Fallthrough
  | Continue => ret Continue
  | Return => ret Return
  end.

(** One pass through the body of the [while] loop. *)
Definition iteration (topic : string) : M Control :=
  action <- begin_iteration;;
  finish_iteration topic action.

(** [while (state.step < MAX_STEPS && state.failedAttempts < MAX_FAILED_ATTEMPTS)].
    The result is [Return] when the body returned out of [start], and
    [Fallthrough] when the condition became false.  [fuel] bounds the
    number of passes; [MAX_STEPS] is always enough. *)
Fixpoint agent_loop (topic : string) (fuel : nat) : M Control :=
  state <- get_state;;
  if loop_condition state
  then
    match fuel with
    | O => out_of_fuel
    | S fuel' =>
        control <- iteration topic;;
        match control with
        | Return => ret Return
        | _ => agent_loop topic fuel'
        end
    end
  else ret Fallthrough.

(** [// If we hit max steps without answering, synthesize what we have] *)
Definition degraded_synthesis (topic : string) : M unit :=
  state <- get_state;;
  sendEvent
    (event StreamEvent.thinking
       "Reached maximum research depth. Synthesizing findings..."
       (Some (AgentState.step state)) None);;
  report <- synthesizeReport topic (AgentState.knowledge state);;
  state <- get_state;;
  sendEvent
    (event StreamEvent.answer "Research complete (max depth reached)"
       (Some (AgentState.step state))
       (Some (StreamEvent.Report report (run_stats state))));;
  tell Close.

(** The [start] callback of the stream: the [try] block and its [catch]. *)
Definition start (topic : string) (fuel : nat) : M unit :=
  try_catch
    (sendEvent
       (StreamEvent.mk StreamEvent.thinking
          ("Starting deep research on: " ++ Js.dq ++ topic ++ Js.dq)
          None (Some 0) (Some MAX_STEPS));;
     control <- agent_loop topic fuel;;
     match control with
     | Return => ret tt
     | _ => degraded_synthesis topic
     end)
    (fun error =>
       sendEvent
         (event StreamEvent.error
            (let 'JsError message := error in "Error: " ++ message)
            None None);;
       tell Close).

(** One run on [topic], from the initial state, in world [w]. *)
Definition run (topic : string) (w : World) : Outcome World unit :=
  start topic MAX_STEPS (initial topic w).

End Agent.

(** ** Observations on traces *)

(** The events of a trace, in emission order. *)
Definition events (t : list Effect) : list StreamEvent.t :=
  flat_map (fun e => match e with Emit ev => [ev] | _ => [] end) t.

(** The [step] values the events carry, in emission order. *)
Definition event_steps (t : list Effect) : list nat :=
  flat_map (fun ev => match StreamEvent.step ev with Some n => [n] | None => [] end)
           (events t).

(** The queries passed to [tavilySearch], the URLs passed to [readUrl]. *)
Definition search_call (e : Effect) : list string :=
  match e with Invoke (TavilySearch q) => [q] | _ => [] end.

Definition read_call (e : Effect) : list string :=
  match e with Invoke (ReadUrl u) => [u] | _ => [] end.

Definition searched (t : list Effect) : list string := flat_map search_call t.

Definition extracted (t : list Effect) : list string := flat_map read_call t.

(** The query a knowledge item of kind [search] was made for, the URL a
    knowledge item of kind [url] was made for. *)
Definition search_item (k : KnowledgeItem.t) : list string :=
  match KnowledgeItem.type k with
  | KnowledgeItem.search => [KnowledgeItem.question k]
  | _ => []
  end.

Definition url_item (k : KnowledgeItem.t) : list string :=
  match KnowledgeItem.type k with
  | KnowledgeItem.url => KnowledgeItem.sources k
  | _ => []
  end.


(** The kinds that end a stream. *)
Definition final_kind (k : StreamEvent.kind) : bool :=
  match k with
  | StreamEvent.answer | StreamEvent.error => true
  | _ => false
  end.

(** Effects that belong to the end of a run: a synthesis call, an
    [answer] or [error] event, the closing of the stream. *)
Definition terminal (e : Effect) : bool :=
  match e with
  | Emit ev => final_kind (StreamEvent.type ev)
  | Invoke (SynthesizeReport _ _) => true
  | Invoke _ => false
  | Delay _ => false
  | Close => true
  end.

Definition quiet (t : list Effect) : Prop :=
  Forall (fun e => terminal e = false) t.

(** [after t o]: the outcome [o], reached after the effects [t]. *)
Definition after {World A} (t : list Effect) (o : Outcome World A)
  : Outcome World A :=
  mkOutcome (result o) (store o) (t ++ trace o).

(** How a computation ended. *)
Inductive Status := Normal | Threw | Exhausted.

Definition status {A} (r : Result A) : Status :=
  match r with
  | Ok _ => Normal
  | Throw _ => Threw
  | OutOfFuel => Exhausted
  end.

(** A relation between the store before, the effects, the way the
    computation ended and the store after. *)
Definition Step (World : Type) : Type :=
  Store World -> list Effect -> Status -> Store World -> Prop.

(** [holds R m s]: running [m] from [s] is a step of [R]. *)
Definition holds {World A} (R : Step World) (m : M World A) (s : Store World)
  : Prop :=
  R s (trace (m s)) (status (result (m s))) (store (m s)).

(** ** Events named in the statements *)

Definition gap_event (step : nat) (gap : GapQuestion.t) : Effect :=
  Emit (StreamEvent.mk StreamEvent.gap
          ("Gap identified: " ++ GapQuestion.question gap)
          (Some (StreamEvent.Gap gap)) (Some step) None).

Definition reflecting_event (step count : nat) : Effect :=
  Emit (StreamEvent.mk StreamEvent.reflecting
          ("Identified " ++ Js.of_nat count ++ " knowledge gaps to investigate")
          None (Some step) None).


(** ** Relations used in the statements *)

(** [news seen s s' l]: the strings of [l] are pairwise distinct, none
    is in the set [seen] of [s] and all are in the set [seen] of [s']. *)
Definition news (seen : AgentState.t -> Js.StrSet.t)
    (s s' : AgentState.t) (l : list string) : Prop :=
  (forall x, In x l ->
     Js.StrSet.has (seen s) x = false /\ Js.StrSet.has (seen s') x = true)
  /\ NoDup l.

(** [fresh seen call made_for]: the set [seen] only grows; the strings the
    calls [call] were made with, and the strings the new knowledge items
    were made for, are new to [seen], recorded in it, and each occurs
    once. *)
Definition fresh {World} (seen : AgentState.t -> Js.StrSet.t)
    (call : Effect -> list string) (made_for : KnowledgeItem.t -> list string)
  : Step World :=
  fun s t _ s' =>
    (forall x, Js.StrSet.has (seen (state s)) x = true ->
               Js.StrSet.has (seen (state s')) x = true) /\
    news seen (state s) (state s') (flat_map call t) /\
    exists new,
      AgentState.knowledge (state s')
      = AgentState.knowledge (state s) ++ new /\
      news seen (state s) (state s') (flat_map made_for new).

(** [step] never decreases and the events carry the value it has when
    they are emitted. *)
Definition steps_ordered {World} : Step World :=
  fun s t _ s' =>
    AgentState.step (state s) <= AgentState.step (state s') /\
    StronglySorted le (event_steps t) /\
    Forall (fun n => AgentState.step (state s) <= n
                     /\ n <= AgentState.step (state s'))
           (event_steps t).

(** A field of the state is left as it was. *)
Definition keeps {World X} (field : AgentState.t -> X) : Step World :=
  fun s _ _ s' => field (state s') = field (state s).

(** Nothing of the end of a run happens. *)
Definition stays_quiet {World} : Step World :=
  fun _ t _ _ => quiet t.

(** The computation ends in one of the ways [ok] allows. *)
Definition ends_in {World} (ok : Status -> bool) : Step World :=
  fun _ _ st _ => ok st = true.

Definition is_normal (st : Status) : bool :=
  match st with Normal => true | _ => false end.

Definition not_exhausted (st : Status) : bool :=
  match st with Exhausted => false | _ => true end.

(** What [callLLM] makes of a reply of the gateway. *)
Definition llm_result (reply : LLMReply) : Result string :=
  match reply with
  | LLMRejected message => Throw (JsError message)
  | LLMNotOk status => Throw (JsError ("LLM API failed: " ++ Js.of_nat status))
  | LLMContent content => Ok content
  end.

(** The trace of a pass through the loop, or of the whole loop, by the
    way it ends: a [return] comes right after the synthesis call, the
    [answer] event and the closing of the stream; an exception comes right
    after the call that threw it, a policy call or a synthesis call; up to
    there nothing of the end of a run has happened. *)
Definition loop_shape (r : Result Control) (t : list Effect) : Prop :=
  match r with
  | Ok Return =>
      exists pre topic knowledge ev,
        t = pre ++ [Invoke (SynthesizeReport topic knowledge); Emit ev; Close]
        /\ quiet pre /\ StreamEvent.type ev = StreamEvent.answer
  | Throw _ =>
      exists pre c,
        t = pre ++ [Invoke c] /\ quiet pre /\
        (c = GetAgentAction \/
         exists topic knowledge, c = SynthesizeReport topic knowledge)
  | _ => quiet t
  end.

(** An exception comes right after a policy call, and the fuel is not
    what ends the computation. *)
Definition throws_at_policy {World} : Step World :=
  fun _ t st _ =>
    match st with
    | Normal => True
    | Threw => exists pre, t = pre ++ [Invoke GetAgentAction]
    | Exhausted => False
    end.

(** The trace of a complete run: it ends with a call, the final event and
    the closing of the stream, and nothing of the end of a run happens
    before.  Either the call is the synthesis call, and the final event
    is [answer] or [error]; or the call is a policy call, which threw, and
    the final event is [error]. *)
Definition run_shape (t : list Effect) : Prop :=
  exists pre c ev,
    t = pre ++ [Invoke c; Emit ev; Close] /\ quiet pre /\
    ((exists topic knowledge, c = SynthesizeReport topic knowledge)
     /\ final_kind (StreamEvent.type ev) = true
     \/ c = GetAgentAction /\ StreamEvent.type ev = StreamEvent.error).

(** The events of the degraded completion. *)
Definition depth_reached_event (step : nat) : Effect :=
  Emit (StreamEvent.mk StreamEvent.thinking
          "Reached maximum research depth. Synthesizing findings..."
          None (Some step) None).

Definition degraded_answer_event (state : AgentState.t) (report : string)
  : Effect :=
  Emit (StreamEvent.mk StreamEvent.answer
          "Research complete (max depth reached)"
          (Some (StreamEvent.Report report
                   (StreamEvent.Stats.mk
                      (AgentState.step state)
                      (List.length (AgentState.knowledge state))
                      (Js.StrSet.size (AgentState.visitedUrls state))
                      (Js.StrSet.size (AgentState.searchQueries state))
                      (List.length (AgentState.gaps state)))))
          (Some (AgentState.step state)) None).

(** The first event of a run and the event of the [catch] block. *)
Definition start_event (topic : string) : Effect :=
  Emit (StreamEvent.mk StreamEvent.thinking
          ("Starting deep research on: " ++ Js.dq ++ topic ++ Js.dq)
          None (Some 0) (Some MAX_STEPS)).

Definition error_event (error : Exn) : Effect :=
  Emit (StreamEvent.mk StreamEvent.error
          (let 'JsError message := error in "Error: " ++ message)
          None None None).

(** The number of passes through the loop a trace shows: every pass
    emits one [progress] event. *)
Definition is_progress (e : Effect) : bool :=
  match e with
  | Emit ev => StreamEvent.kind_eqb (StreamEvent.type ev) StreamEvent.progress
  | _ => false
  end.

Definition progress_count (t : list Effect) : nat :=
  List.length (filter is_progress t).

Definition counts_steps {World} : Step World :=
  fun s t _ s' =>
    AgentState.step (state s')
    = AgentState.step (state s) + progress_count t.


(** ** Shapes of decisions *)

Definition is_none {A} (x : option A) : bool :=
  match x with Some _ => false | None => true end.

Definition known_tag (tag : string) : bool :=
  String.eqb tag "search" || String.eqb tag "read"
  || String.eqb tag "reflect" || String.eqb tag "answer".

(** A decision whose tag is none of the four, or whose tag is [search],
    [read] or [reflect] while the payload of that tag is absent. *)
Definition no_op (a : AgentAction.t) : bool :=
  negb (known_tag (AgentAction.action a))
  || (String.eqb (AgentAction.action a) "search"
      && is_none (AgentAction.searchQueries a))
  || (String.eqb (AgentAction.action a) "read"
      && is_none (AgentAction.urlsToRead a))
  || (String.eqb (AgentAction.action a) "reflect"
      && is_none (AgentAction.gapQuestions a)).

(** The tagged variant of the specification:
    [search: queries | read: urls | reflect: gapQuestions | answer: text]. *)
Definition tagged_variant (a : AgentAction.t) : bool :=
  (String.eqb (AgentAction.action a) "search"
   && negb (is_none (AgentAction.searchQueries a)))
  || (String.eqb (AgentAction.action a) "read"
      && negb (is_none (AgentAction.urlsToRead a)))
  || (String.eqb (AgentAction.action a) "reflect"
      && negb (is_none (AgentAction.gapQuestions a)))
  || (String.eqb (AgentAction.action a) "answer"
      && negb (is_none (AgentAction.finalAnswer a))).

(** The queue a [reflect] decision leaves, as the specification words it:
    the proposed questions are appended in order, then the original
    question unless the queue already has it. *)
Definition reflected (reason : string) (state : AgentState.t)
    (gapQuestions : list GapQuestion.t) : list GapQuestion.t :=
  let queue := AgentState.gaps state ++ gapQuestions in
  if existsb (fun g => String.eqb (GapQuestion.question g)
                         (AgentState.originalQuestion state)) queue
  then queue
  else queue ++ [GapQuestion.mk (AgentState.originalQuestion state) 1 reason].

(** The original question is queued or is the current question. *)
Definition original_kept (state : AgentState.t) : bool :=
  existsb (fun g => String.eqb (GapQuestion.question g)
                      (AgentState.originalQuestion state))
          (AgentState.gaps state)
  || String.eqb (AgentState.currentQuestion state)
                (AgentState.originalQuestion state).

(** ** A JSON reader for concrete runs

    The properties below hold for any [JSON_parse].  To run the program on
    concrete replies of the gateway, [Json.parse_action] reads a JSON text
    the way [JSON.parse] does and then reads the value at type
    [AgentAction].  It covers the JSON grammar except [\u] escapes and
    numbers with a fraction or an exponent, and the values that have the
    shape of the interface; texts outside this fragment are not used. *)

Module Json.

#[local] Set Warnings "-register-all".

Inductive value :=
| Null
| Bool (b : bool)
| Num (z : Z)
| Str (s : string)
| Arr (items : list value)
| Obj (members : list (string * value)).

Definition is_ws (c : ascii) : bool :=
  match nat_of_ascii c with
  | 32 | 9 | 10 | 13 => true
  | _ => false
  end.

Definition digit (c : ascii) : option Z :=
  let n := nat_of_ascii c in
  if ((48 <=? n) && (n <=? 57))%nat then Some (Z.of_nat (n - 48)) else None.

Fixpoint skip_ws (s : string) : string :=
  match s with
  | String c r => if is_ws c then skip_ws r else s
  | EmptyString => s
  end.

Definition unescape (c : ascii) : option ascii :=
  match nat_of_ascii c with
  | 34 => Some "034"%char      (* quote *)
  | 92 => Some "092"%char      (* backslash *)
  | 47 => Some "047"%char      (* slash *)
  | 98 => Some "008"%char      (* b: backspace *)
  | 102 => Some "012"%char     (* f: form feed *)
  | 110 => Some "010"%char     (* n: line feed *)
  | 114 => Some "013"%char     (* r: carriage return *)
  | 116 => Some "009"%char     (* t: tab *)
  | _ => None
  end.

(** The characters of a string literal, after its opening quote. *)
Fixpoint parse_chars (s : string) : option (string * string) :=
  match s with
  | EmptyString => None
  | String c r =>
      match nat_of_ascii c with
      | 34 => Some (EmptyString, r)
      | 92 =>
          match r with
          | String e r' =>
              match unescape e, parse_chars r' with
              | Some c', Some (t, rest) => Some (String c' t, rest)
              | _, _ => None
              end
          | EmptyString => None
          end
      | n =>
          if (n <? 32)%nat then None
          else match parse_chars r with
               | Some (t, rest) => Some (String c t, rest)
               | None => None
               end
      end
  end.

Fixpoint parse_digits (acc : Z) (s : string) : Z * string :=
  match s with
  | String c r =>
      match digit c with
      | Some d => parse_digits (acc * 10 + d) r
      | None => (acc, s)
      end
  | EmptyString => (acc, s)
  end.

(** An integer literal: no leading zero, no fraction, no exponent. *)
Definition parse_int (s : string) : option (Z * string) :=
  match s with
  | String c r =>
      match digit c with
      | Some d =>
          let '(n, rest) := if (d =? 0)%Z then (0%Z, r) else parse_digits d r in
          match rest with
          | String c' _ =>
              match digit c', nat_of_ascii c' with
              | Some _, _ | _, 46 | _, 101 | _, 69 => None
              | _, _ => Some (n, rest)
              end
          | EmptyString => Some (n, rest)
          end
      | None => None
      end
  | EmptyString => None
  end.

Definition literal (word : string) (v : value) (s : string)
  : option (value * string) :=
  if String.prefix word s
  then Some (v, String.substring (String.length word)
                  (String.length s - String.length word) s)
  else None.

Fixpoint parse_value (fuel : nat) (s : string) : option (value * string) :=
  match fuel with
  | O => None
  | S fuel' =>
      match skip_ws s with
      | EmptyString => None
      | String c r as s' =>
          match nat_of_ascii c with
          | 123 =>                                   (* { *)
              match skip_ws r with
              | String "}" r' => Some (Obj [], r')
              | r' => parse_members fuel' r' []
              end
          | 91 =>                                    (* [ *)
              match skip_ws r with
              | String "]" r' => Some (Arr [], r')
              | r' => parse_items fuel' r' []
              end
          | 34 =>
              match parse_chars r with
              | Some (t, rest) => Some (Str t, rest)
              | None => None
              end
          | 45 =>                                    (* - *)
              match parse_int r with
              | Some (n, rest) => Some (Num (- n), rest)
              | None => None
              end
          | 116 => literal "true" (Bool true) s'
          | 102 => literal "false" (Bool false) s'
          | 110 => literal "null" Null s'
          | _ =>
              match parse_int s' with
              | Some (n, rest) => Some (Num n, rest)
              | None => None
              end
          end
      end
  end

with parse_items (fuel : nat) (s : string) (acc : list value)
  : option (value * string) :=
  match fuel with
  | O => None
  | S fuel' =>
      match parse_value fuel' s with
      | Some (v, rest) =>
          match skip_ws rest with
          | String "," r => parse_items fuel' r (acc ++ [v])
          | String "]" r => Some (Arr (acc ++ [v]), r)
          | _ => None
          end
      | None => None
      end
  end

with parse_members (fuel : nat) (s : string) (acc : list (string * value))
  : option (value * string) :=
  match fuel with
  | O => None
  | S fuel' =>
      match skip_ws s with
      | String "034" r =>
          match parse_chars r with
          | Some (key, rest) =>
              match skip_ws rest with
              | String ":" r' =>
                  match parse_value fuel' r' with
                  | Some (v, rest') =>
                      match skip_ws rest' with
                      | String "," r'' => parse_members fuel' r'' (acc ++ [(key, v)])
                      | String "}" r'' => Some (Obj (acc ++ [(key, v)]), r'')
                      | _ => None
                      end
                  | None => None
                  end
              | _ => None
              end
          | None => None
          end
      | _ => None
      end
  end.

(** [JSON.parse(text)]: one value, with nothing but white space after it. *)
Definition parse (text : string) : option value :=
  match parse_value (S (String.length text)) text with
  | Some (v, rest) =>
      match skip_ws rest with
      | EmptyString => Some v
      | _ => None
      end
  | None => None
  end.

(** Property access [o.key] on a parsed object: the last member named
    [key], if any. *)
Fixpoint get (key : string) (members : list (string * value)) : option value :=
  match members with
  | [] => None
  | (k, v) :: rest =>
      match get key rest with
      | Some v' => Some v'
      | None => if String.eqb k key then Some v else None
      end
  end.

(** Reading a value at a TypeScript type; [None] when it has another
    shape. *)
Definition as_string (v : value) : option string :=
  match v with Str s => Some s | _ => None end.

Fixpoint as_array {A} (item : value -> option A) (vs : list value)
  : option (list A) :=
  match vs with
  | [] => Some []
  | v :: vs' =>
      match item v, as_array item vs' with
      | Some a, Some l => Some (a :: l)
      | _, _ => None
      end
  end.

(** An optional member [key?: T]. *)
Definition optional {A} (read : value -> option A) (key : string)
    (members : list (string * value)) : option (option A) :=
  match get key members with
  | None => Some None
  | Some v => match read v with Some a => Some (Some a) | None => None end
  end.

Definition as_strings (v : value) : option (list string) :=
  match v with Arr vs => as_array as_string vs | _ => None end.

Definition as_gap (v : value) : option GapQuestion.t :=
  match v with
  | Obj ms =>
      match get "question" ms, get "priority" ms, get "reason" ms with
      | Some (Str q), Some (Num p), Some (Str r) => Some (GapQuestion.mk q p r)
      | _, _, _ => None
      end
  | _ => None
  end.

Definition as_gaps (v : value) : option (list GapQuestion.t) :=
  match v with Arr vs => as_array as_gap vs | _ => None end.

Definition as_action (v : value) : option AgentAction.t :=
  match v with
  | Obj ms =>
      match get "action" ms, get "reasoning" ms,
            optional as_strings "searchQueries" ms,
            optional as_strings "urlsToRead" ms,
            optional as_gaps "gapQuestions" ms,
            optional as_string "finalAnswer" ms with
      | Some (Str a), Some (Str r), Some qs, Some us, Some gs, Some fa =>
          Some (AgentAction.mk a r qs us gs fa)
      | _, _, _, _, _, _ => None
      end
  | _ => None
  end.

Definition parse_action (text : string) : option AgentAction.t :=
  match parse text with
  | Some v => as_action v
  | None => None
  end.

(** Writing JSON texts: [q s] is the string literal of [s] (for [s]
    without quotes, backslashes or control characters). *)
Definition q (s : string) : string := (Js.dq ++ s ++ Js.dq)%string.

Definition array (items : list string) : string :=
  ("[" ++ String.concat "," items ++ "]")%string.

Definition member (key text : string) : string := (q key ++ ":" ++ text)%string.

Definition object (members : list string) : string :=
  ("{" ++ String.concat "," members ++ "}")%string.

End Json.

(** ** Scripted services

    A deployment whose gateway answers the agent prompts with a fixed
    list of replies, one per call in order, answers every report prompt
    with [report], and whose search and extract services answer by query
    and by URL.  The world state is the list of replies still to come. *)

Definition scripted (report : LLMReply) (search : string -> SearchReply)
    (extract : string -> ExtractReply) : Services (list LLMReply) :=
  {| llm := fun request replies =>
       match request with
       | AgentPrompt _ _ =>
           match replies with
           | reply :: rest => (reply, rest)
           | [] => (LLMRejected "connection closed", [])
           end
       | ReportPrompt _ _ => (report, replies)
       end;
     tavily_search := fun query replies => (search query, replies);
     tavily_extract := fun url replies => (extract url, replies);
     JSON_parse := Json.parse_action |}.

(** JSON texts of the four kinds of decision. *)
Definition gap_text (question : string) (priority : nat) (reason : string)
  : string :=
  Json.object [Json.member "question" (Json.q question);
               Json.member "priority" (Js.of_nat priority);
               Json.member "reason" (Json.q reason)].

Definition search_text (queries : list string) : string :=
  Json.object [Json.member "action" (Json.q "search");
               Json.member "reasoning" (Json.q "need sources");
               Json.member "searchQueries" (Json.array (map Json.q queries))].

Definition reflect_text (gaps : list string) : string :=
  Json.object [Json.member "action" (Json.q "reflect");
               Json.member "reasoning" (Json.q "find gaps");
               Json.member "gapQuestions" (Json.array gaps)].


(** A search service that finds nothing, one that finds one page per
    query, and an extract service that finds nothing. *)
Definition no_results (query : string) : SearchReply := SearchData (Some []).

Definition one_result (query : string) : SearchReply :=
  SearchData (Some [SearchResult.mk ("About " ++ query)
                      ("https://example.org/" ++ query) "text"]).

Definition no_content (url : string) : ExtractReply := ExtractData (Some []).


(** A reply with a tag that is none of the four. *)
Definition unknown_tag_text : string :=
  Json.object [Json.member "action" (Json.q "summarize");
               Json.member "reasoning" (Json.q "wrap up")].

Definition unknown_tag : AgentAction.t :=
  AgentAction.mk "summarize" "wrap up" None None None None.

(** The decision of the reflect scenario: gap questions [A] (priority 3)
    and [B] (priority 1). *)
Definition gap_A : GapQuestion.t := GapQuestion.mk "A" 3 "background".
Definition gap_B : GapQuestion.t := GapQuestion.mk "B" 1 "details".

Definition reflect_A_B : AgentAction.t :=
  AgentAction.mk "reflect" "find gaps" None None (Some [gap_A; gap_B]) None.

(** A reply of the gateway that is not JSON. *)
Definition prose_text : string := "I should search the web next.".




(** Decisions of the search and read scenarios. *)
Definition search_q_q : AgentAction.t :=
  AgentAction.mk "search" "need sources" (Some ["q"; "q"]) None None None.


(** The starvation scenario: two [reflect] decisions, proposing [A] and
    then [B], followed by [search] decisions. *)
Definition two_reflections : list LLMReply :=
  LLMContent (reflect_text [gap_text "A" 3 "background"])
  :: LLMContent (reflect_text [gap_text "B" 2 "details"])
  :: repeat (LLMContent (search_text ["q"])) 23.
(** ** Facts about strings *)

Section StringFacts.

Lemma length_append (a b : string) :
  String.length (a ++ b)%string = String.length a + String.length b.
Proof.
  induction a as [|c a IH]; simpl; [reflexivity|].
  now rewrite IH.
Qed.

Lemma length_take (n : nat) (s : string) :
  String.length (String.substring 0 n s) = Nat.min n (String.length s).
Proof.
  revert s; induction n as [|n IH]; intros [|c s]; simpl; try reflexivity.
  now rewrite IH.
Qed.

Lemma take_append (n : nat) (a b : string) :
  n <= String.length a ->
  String.substring 0 n (a ++ b)%string = String.substring 0 n a.
Proof.
  revert a; induction n as [|n IH]; intros [|c a] H; simpl in *;
    try reflexivity; try lia.
  - now destruct b.
  - f_equal. apply IH. lia.
Qed.

Lemma take_take (n : nat) (s : string) :
  String.substring 0 n (String.substring 0 n s) = String.substring 0 n s.
Proof.
  revert s; induction n as [|n IH]; intros [|c s]; simpl; try reflexivity.
  now rewrite IH.
Qed.

(** [text.substring(0, k)] for [0 <= k] is the prefix of length [k]. *)
Lemma substring_prefix (s : string) (k : Z) :
  (0 <= k)%Z ->
  Js.substring s 0 k = String.substring 0 (Z.to_nat k) s.
Proof.
  intros Hk. unfold Js.substring, Js.clamp. simpl Z.to_nat.
  rewrite Nat.min_0_l, Nat.max_0_l, Nat.sub_0_r.
  revert s. generalize (Z.to_nat k) as n.
  induction n as [|n IH]; intros [|c s]; simpl; try reflexivity.
  f_equal. apply IH.
Qed.

End StringFacts.

(** ** Truncation *)

Section Truncation.

Lemma truncate_short (s : string) (n : Z) :
  (Z.of_nat (String.length s) <= 4 * n)%Z ->
  truncateToTokens s n = s.
Proof.
  intros H. unfold truncateToTokens.
  destruct (Z.leb_spec (Z.of_nat (String.length s)) (n * 4)); [reflexivity|lia].
Qed.

Lemma truncate_long (s : string) (n : Z) :
  (0 <= n)%Z ->
  (4 * n < Z.of_nat (String.length s))%Z ->
  truncateToTokens s n
  = (String.substring 0 (Z.to_nat (n * 4)) s ++ "...")%string.
Proof.
  intros Hn H. unfold truncateToTokens.
  destruct (Z.leb_spec (Z.of_nat (String.length s)) (n * 4)); [lia|].
  rewrite substring_prefix by lia. reflexivity.
Qed.

Lemma truncate_long_length (s : string) (n : Z) :
  (0 <= n)%Z ->
  (4 * n < Z.of_nat (String.length s))%Z ->
  Z.of_nat (String.length (truncateToTokens s n)) = (4 * n + 3)%Z.
Proof.
  intros Hn H. rewrite truncate_long by assumption.
  rewrite length_append, length_take. simpl String.length. lia.
Qed.

End Truncation.

(** C10. For every string [s] and every [maxTokens = n >= 0], the result of
    [truncateToTokens s n] has at most [4*n + 3] characters, is [s] itself
    when [s] has at most [4*n] characters, and truncating a second time
    with the same budget changes nothing. *)
Theorem truncateToTokens_bound_idempotent (s : string) (n : Z) :
  (0 <= n)%Z ->
  (Z.of_nat (String.length (truncateToTokens s n)) <= 4 * n + 3)%Z /\
  ((Z.of_nat (String.length s) <= 4 * n)%Z -> truncateToTokens s n = s) /\
  truncateToTokens (truncateToTokens s n) n = truncateToTokens s n.
Proof.
  intros Hn.
  destruct (Z_le_gt_dec (Z.of_nat (String.length s)) (4 * n)) as [Hs|Hs].
  - rewrite !truncate_short by (rewrite ?truncate_short; assumption).
    repeat split; auto; lia.
  - repeat split.
    + rewrite truncate_long_length by lia. lia.
    + intros; lia.
    + assert (Hlen := truncate_long_length s Hn ltac:(lia)).
      rewrite (truncate_long (truncateToTokens s n)) by lia.
      rewrite (truncate_long s) by lia.
      rewrite take_append by (rewrite length_take; lia).
      now rewrite take_take.
Qed.

Lemma truncateToTokens_bound_idempotent_witness :
  (0 <= 1)%Z /\
  truncateToTokens "deep research" 1 = "deep..." /\
  truncateToTokens (truncateToTokens "deep research" 1) 1 = "deep...".
Proof.
  split; [lia|].
  destruct (@truncateToTokens_bound_idempotent "deep research" 1 ltac:(lia))
    as (_ & _ & Hidem).
  split; [reflexivity|].
  rewrite Hidem. reflexivity.
Defined.

(** ** Facts about the monad *)

Section MonadFacts.
Context {World : Type}.
Implicit Types s : Store World.

Lemma bind_ok {A B} (m : M World A) (f : A -> M World B) s a :
  result (m s) = Ok a ->
  bind m f s = after (trace (m s)) (f a (store (m s))).
Proof. intros H. unfold bind, after. now rewrite H. Qed.

Lemma store_eta s : mkStore (state s) (availableUrls s) (world s) = s.
Proof. now destruct s. Qed.

Lemma outcome_eta {A} (o : Outcome World A) :
  mkOutcome (result o) (store o) (trace o) = o.
Proof. now destruct o. Qed.

(** Symbolic execution of the primitives under [bind]. *)
Lemma bind_ret {A B} (a : A) (f : A -> M World B) s :
  bind (ret a) f s = f a s.
Proof. unfold bind; cbn. apply outcome_eta. Qed.

Lemma bind_get_state {B} (f : AgentState.t -> M World B) s :
  bind get_state f s = f (state s) s.
Proof. unfold bind; cbn. apply outcome_eta. Qed.

Lemma bind_get_availableUrls {B} (f : list string -> M World B) s :
  bind get_availableUrls f s = f (availableUrls s) s.
Proof. unfold bind; cbn. apply outcome_eta. Qed.

Lemma bind_modify_state {B} g (f : unit -> M World B) s :
  bind (modify_state g) f s
  = f tt (mkStore (g (state s)) (availableUrls s) (world s)).
Proof. unfold bind; cbn. apply outcome_eta. Qed.

Lemma bind_modify_availableUrls {B} g (f : unit -> M World B) s :
  bind (modify_availableUrls g) f s
  = f tt (mkStore (state s) (g (availableUrls s)) (world s)).
Proof. unfold bind; cbn. apply outcome_eta. Qed.

Lemma bind_tell {B} e (f : unit -> M World B) s :
  bind (tell e) f s = after [e] (f tt s).
Proof. reflexivity. Qed.

Lemma bind_sendEvent {B} ev (f : unit -> M World B) s :
  bind (sendEvent ev) f s = after [Emit ev] (f tt s).
Proof. reflexivity. Qed.

Lemma bind_ask {R B} (srv : World -> R * World) (f : R -> M World B) s :
  bind (ask srv) f s
  = f (fst (srv (world s)))
      (mkStore (state s) (availableUrls s) (snd (srv (world s)))).
Proof.
  unfold bind, ask. destruct (srv (world s)); cbn. apply outcome_eta.
Qed.

Lemma bind_assoc {A B C} (m : M World A) (f : A -> M World B)
    (g : B -> M World C) s :
  bind (bind m f) g s = bind m (fun a => bind (f a) g) s.
Proof.
  unfold bind. destruct (result (m s)); cbn; try reflexivity.
  destruct (result (f a (store (m s)))); cbn; try reflexivity.
  now rewrite app_assoc.
Qed.

Lemma bind_after {A B} (m : M World A) (f : A -> M World B) s o :
  m s = o ->
  bind m f s
  = match result o with
    | Ok a => after (trace o) (f a (store o))
    | Throw e => mkOutcome (Throw e) (store o) (trace o)
    | OutOfFuel => mkOutcome OutOfFuel (store o) (trace o)
    end.
Proof. intros <-. unfold bind, after. now destruct (result (m s)). Qed.

End MonadFacts.

(** ** The dispatch, branch by branch *)

Section Dispatch.
Context {World : Type} (sv : Services World).
Implicit Types s : Store World.

Lemma reflect_all gapQuestions : forall s,
  for_of gapQuestions (@reflect_one World) s
  = mkOutcome (Ok tt)
      (mkStore
         (AgentState.set_gaps (AgentState.gaps (state s) ++ gapQuestions)
            (state s))
         (availableUrls s) (world s))
      (map (gap_event (AgentState.step (state s))) gapQuestions).
Proof.
  induction gapQuestions as [|g gs IH]; intros [[o c g0 k v q n tk fa] urls w].
  - cbn. now rewrite app_nil_r.
  - cbn [for_of]. erewrite bind_ok by reflexivity.
    rewrite IH. cbn. now rewrite <- app_assoc.
Qed.

Lemma no_op_dispatch topic a s :
  no_op a = true ->
  execute sv topic a s = mkOutcome (Ok Fallthrough) s [].
Proof.
  unfold no_op, known_tag, execute, and_then.
  destruct a as [tag r qs us gs fa]; cbn.
  destruct (String.eqb tag "search") eqn:E1;
    destruct (String.eqb tag "read") eqn:E2;
    destruct (String.eqb tag "reflect") eqn:E3;
    destruct (String.eqb tag "answer") eqn:E4;
    destruct qs, us, gs; cbn; try discriminate; try reflexivity;
    repeat match goal with
           | H : String.eqb _ _ = true |- _ => apply String.eqb_eq in H; try subst tag
           end; discriminate.
Qed.

End Dispatch.

(** ** One pass of the loop *)

Section Loop.
Context {World : Type} (sv : Services World).
Implicit Types s : Store World.

Lemma agent_loop_exit topic fuel s :
  loop_condition (state s) = false ->
  agent_loop sv topic fuel s = mkOutcome (Ok Fallthrough) s [].
Proof.
  intros H. destruct fuel; cbn; unfold bind; cbn; now rewrite H.
Qed.

Lemma agent_loop_enter topic fuel s :
  loop_condition (state s) = true ->
  agent_loop sv topic (S fuel) s
  = bind (iteration sv topic)
      (fun control =>
         match control with
         | Return => ret Return
         | _ => agent_loop sv topic fuel
         end) s.
Proof.
  intros H. cbn [agent_loop]. unfold bind at 1. cbn. rewrite H.
  destruct (bind (iteration sv topic) _ s); reflexivity.
Qed.

(** When the body ends without [return], the run goes on with the loop
    test in the store the body left. *)
Lemma agent_loop_next topic fuel s a control :
  loop_condition (state s) = true ->
  result (begin_iteration sv s) = Ok a ->
  result (finish_iteration sv topic a (store (begin_iteration sv s)))
  = Ok control ->
  control <> Return ->
  agent_loop sv topic (S fuel) s
  = after (trace (begin_iteration sv s)
           ++ trace (finish_iteration sv topic a (store (begin_iteration sv s))))
      (agent_loop sv topic fuel
         (store (finish_iteration sv topic a (store (begin_iteration sv s))))).
Proof.
  intros Hc Ha Hf Hr. rewrite agent_loop_enter by assumption.
  assert (Hi : iteration sv topic s
               = after (trace (begin_iteration sv s))
                   (finish_iteration sv topic a (store (begin_iteration sv s)))).
  { unfold iteration. now apply bind_ok. }
  erewrite bind_ok by (rewrite Hi; cbn; exact Hf).
  rewrite Hi. cbn [store trace after].
  destruct control; try congruence; reflexivity.
Qed.

End Loop.

(** C9. A decision whose tag is none of [search], [read], [reflect],
    [answer], or whose tag is [search], [read] or [reflect] while the
    payload of that tag is absent, is a no-op for the dispatch: the state,
    the candidate URLs and the world are left as they were, no event is
    emitted and no service is called; the body then waits the inter-step
    delay and the run goes on with the loop test. *)
Theorem no_op_decision_frame {World} (sv : Services World) topic a :
  no_op a = true ->
  (forall s, execute sv topic a s = mkOutcome (Ok Fallthrough) s []) /\
  (forall s, finish_iteration sv topic a s
             = mkOutcome (Ok Fallthrough) s [Delay 500]) /\
  (forall fuel s,
      loop_condition (state s) = true ->
      result (begin_iteration sv s) = Ok a ->
      agent_loop sv topic (S fuel) s
      = after (trace (begin_iteration sv s) ++ [Delay 500])
          (agent_loop sv topic fuel (store (begin_iteration sv s)))).
Proof.
  intros Ha.
  assert (Hf : forall s, finish_iteration sv topic a s
                         = mkOutcome (Ok Fallthrough) s [Delay 500]).
  { intros s. unfold finish_iteration.
    erewrite bind_ok by (rewrite no_op_dispatch by assumption; reflexivity).
    rewrite no_op_dispatch by assumption. reflexivity. }
  repeat split; [intros; now apply no_op_dispatch | exact Hf |].
  intros fuel s Hc Hb.
  erewrite agent_loop_next with (control := Fallthrough);
    try eassumption; rewrite ?Hf; try reflexivity; discriminate.
Qed.

Lemma no_op_decision_frame_witness :
  let sv := scripted (LLMContent "report") no_results no_content in
  let s := initial "T" [LLMContent unknown_tag_text] in
  no_op unknown_tag = true /\
  execute sv "T" unknown_tag s = mkOutcome (Ok Fallthrough) s [] /\
  loop_condition (state s) = true /\
  result (begin_iteration sv s) = Ok unknown_tag /\
  agent_loop sv "T" 1 s
  = after (trace (begin_iteration sv s) ++ [Delay 500])
      (agent_loop sv "T" 0 (store (begin_iteration sv s))).
Proof.
  intros sv s.
  destruct (@no_op_decision_frame _ sv "T" unknown_tag eq_refl) as (He & _ & Hl).
  split; [reflexivity|].
  split; [apply He|].
  split; [reflexivity|].
  split; [reflexivity|].
  apply Hl; reflexivity.
Defined.



Lemma reflect_branch_run {World} gapQuestions (s : Store World) :
  reflect_branch gapQuestions s
  = mkOutcome (Ok Fallthrough)
      (mkStore
         (AgentState.set_gaps
            (reflected "Main research question" (state s) gapQuestions)
            (state s))
         (availableUrls s) (world s))
      (reflecting_event (AgentState.step (state s)) (List.length gapQuestions)
       :: map (gap_event (AgentState.step (state s))) gapQuestions).
Proof.
  unfold reflect_branch.
  rewrite bind_get_state, bind_sendEvent.
  erewrite bind_after by apply reflect_all. cbn [result store trace].
  rewrite bind_get_state.
  unfold has_original, reflected.
  cbn [state AgentState.gaps AgentState.set_gaps AgentState.originalQuestion].
  destruct (existsb _ (AgentState.gaps (state s) ++ gapQuestions));
    cbn [negb]; [rewrite bind_ret | rewrite bind_modify_state];
    destruct s as [[o c g0 k v q n tk fa] urls w];
    unfold after, ret, AgentState.set_gaps, reflecting_event, event; cbn;
    now rewrite app_nil_r.
Qed.

Lemma reflect_dispatch {World} (sv : Services World) topic a gapQuestions s :
  AgentAction.action a = "reflect" ->
  AgentAction.gapQuestions a = Some gapQuestions ->
  execute sv topic a s = reflect_branch gapQuestions s.
Proof.
  intros Ha Hg. unfold execute, and_then. now rewrite Ha, Hg.
Qed.

(** C5, as the code has it.  A [reflect] decision appends the proposed gap
    questions to the queue in the order listed, and then the original
    question, with priority 1 and reason "Main research question", if and
    only if no question of the queue equals it; it emits one [reflecting]
    event and one [gap] event per proposed question, and changes nothing
    else.  On an empty queue and two proposed questions [A], [B] other
    than the original one, the queue becomes [A; B; original]. *)
Theorem reflect_appends_in_order {World} (sv : Services World) topic a gapQuestions :
  AgentAction.action a = "reflect" ->
  AgentAction.gapQuestions a = Some gapQuestions ->
  forall s,
    let original := AgentState.originalQuestion (state s) in
    let queue := AgentState.gaps (state s) ++ gapQuestions in
    let asked := existsb (fun g => String.eqb (GapQuestion.question g) original) queue in
    let main := GapQuestion.mk original 1 "Main research question" in
    let after_reflect := AgentState.gaps (state (store (execute sv topic a s))) in
    execute sv topic a s
    = mkOutcome (Ok Fallthrough)
        (mkStore
           (AgentState.set_gaps
              (reflected "Main research question" (state s) gapQuestions)
              (state s))
           (availableUrls s) (world s))
        (reflecting_event (AgentState.step (state s)) (List.length gapQuestions)
         :: map (gap_event (AgentState.step (state s))) gapQuestions) /\
    (asked = true -> after_reflect = queue) /\
    (asked = false -> after_reflect = queue ++ [main]) /\
    (forall A B,
        AgentState.gaps (state s) = [] ->
        gapQuestions = [A; B] ->
        GapQuestion.question A <> original ->
        GapQuestion.question B <> original ->
        after_reflect = [A; B; main]).
Proof.
  intros Ha Hg s original queue asked main after_reflect.
  assert (He := @reflect_dispatch _ sv topic a gapQuestions s Ha Hg).
  rewrite reflect_branch_run in He.
  assert (Hq : after_reflect
               = reflected "Main research question" (state s) gapQuestions).
  { unfold after_reflect. rewrite He. reflexivity. }
  split; [exact He|]. rewrite Hq. unfold reflected.
  fold original queue asked main.
  split; [intros ->; reflexivity|].
  split; [intros ->; reflexivity|].
  intros A B Hgaps -> HA HB.
  assert (Hasked : asked = false).
  { unfold asked, queue. rewrite Hgaps. cbn.
    apply String.eqb_neq in HA, HB. now rewrite HA, HB. }
  rewrite Hasked. unfold queue. now rewrite Hgaps.
Qed.

Lemma reflect_appends_in_order_witness :
  let sv := scripted (LLMContent "report") no_results no_content in
  let s := initial "T" [] in
  AgentAction.action reflect_A_B = "reflect" /\
  AgentAction.gapQuestions reflect_A_B = Some [gap_A; gap_B] /\
  AgentState.gaps (state (store (execute sv "T" reflect_A_B s)))
  = [gap_A; gap_B; GapQuestion.mk "T" 1 "Main research question"].
Proof.
  intros sv s.
  destruct (@reflect_appends_in_order _ sv "T" reflect_A_B [gap_A; gap_B]
              eq_refl eq_refl s) as (_ & _ & _ & Hscenario).
  split; [reflexivity|]. split; [reflexivity|].
  apply Hscenario; try reflexivity; discriminate.
Defined.

(** C5 as worded fails on the reason of the re-appended question: the
    code writes "Main research question", with a capital M. *)
Lemma reflect_reason_counterexample :
  let sv := scripted (LLMContent "report") no_results no_content in
  AgentState.gaps (state (store (execute sv "T" reflect_A_B (initial "T" []))))
  <> [gap_A; gap_B; GapQuestion.mk "T" 1 "main research question"].
Proof. vm_compute. discriminate. Qed.

(** ** A logic of relations between stores and traces

    [R s t st s'] reads: from store [s], the effects [t] lead to store
    [s'], where the computation ends normally or by an exception,
    according to [st].  When [R] holds of every primitive step and
    composes, it holds of the program, whatever the services answer. *)

Section Logic.
Context {World : Type}.
Variable R : Step World.
Hypothesis R_world : forall s urls w, R s [] Normal (mkStore (state s) urls w).
Hypothesis R_trans : forall s1 t1 s2 t2 st s3,
  R s1 t1 Normal s2 -> R s2 t2 st s3 -> R s1 (t1 ++ t2) st s3.
Hypothesis R_throw : forall s, R s [] Threw s.
Hypothesis R_catch : forall s1 t1 s2 t2 st s3,
  R s1 t1 Threw s2 -> R s2 t2 st s3 -> R s1 (t1 ++ t2) st s3.
Hypothesis R_fuel : forall s, R s [] Exhausted s.

Lemma R_refl s : R s [] Normal s.
Proof. rewrite <- (store_eta s) at 2. apply R_world. Qed.

Lemma holds_ret {A} (a : A) s : holds R (ret a) s.
Proof. apply R_refl. Qed.

Lemma holds_throw {A} e s : holds R (@throw World A e) s.
Proof. apply R_throw. Qed.

Lemma holds_out_of_fuel {A} s : holds R (@out_of_fuel World A) s.
Proof. apply R_fuel. Qed.

Lemma holds_bind {A B} (m : M World A) (f : A -> M World B) s :
  holds R m s ->
  (forall a, result (m s) = Ok a -> holds R (f a) (store (m s))) ->
  holds R (bind m f) s.
Proof.
  unfold holds, bind. intros Hm Hf.
  destruct (result (m s)) as [a| |]; cbn in *; try assumption.
  eapply R_trans; [exact Hm | now apply Hf].
Qed.

Lemma holds_get_state {B} (f : AgentState.t -> M World B) s :
  holds R (f (state s)) s -> holds R (bind get_state f) s.
Proof. unfold holds. now rewrite bind_get_state. Qed.

Lemma holds_get_availableUrls {B} (f : list string -> M World B) s :
  holds R (f (availableUrls s)) s -> holds R (bind get_availableUrls f) s.
Proof. unfold holds. now rewrite bind_get_availableUrls. Qed.

Lemma holds_tell {B} e (f : unit -> M World B) s :
  R s [e] Normal s -> holds R (f tt) s -> holds R (bind (tell e) f) s.
Proof.
  unfold holds. rewrite bind_tell. cbn. intros He Hf.
  exact (R_trans He Hf).
Qed.

Lemma holds_tell_last e s :
  R s [e] Normal s -> holds R (tell e) s.
Proof. trivial. Qed.

Lemma holds_modify_state {B} g (f : unit -> M World B) s :
  R s [] Normal (mkStore (g (state s)) (availableUrls s) (world s)) ->
  holds R (f tt) (mkStore (g (state s)) (availableUrls s) (world s)) ->
  holds R (bind (modify_state g) f) s.
Proof.
  unfold holds. rewrite bind_modify_state. intros Hg Hf.
  apply (R_trans Hg Hf).
Qed.

Lemma holds_modify_state_last g s :
  R s [] Normal (mkStore (g (state s)) (availableUrls s) (world s)) ->
  holds R (modify_state g) s.
Proof. trivial. Qed.

Lemma holds_modify_availableUrls {B} g (f : unit -> M World B) s :
  holds R (f tt) (mkStore (state s) (g (availableUrls s)) (world s)) ->
  holds R (bind (modify_availableUrls g) f) s.
Proof.
  unfold holds. rewrite bind_modify_availableUrls. intros Hf.
  apply (R_trans (R_world s _ _) Hf).
Qed.

Lemma holds_modify_availableUrls_last g s :
  holds R (modify_availableUrls g) s.
Proof. apply R_world. Qed.

Lemma holds_ask {T B} (srv : World -> T * World) (f : T -> M World B) s :
  (forall r w, holds R (f r) (mkStore (state s) (availableUrls s) w)) ->
  holds R (bind (ask srv) f) s.
Proof.
  unfold holds. rewrite bind_ask. intros Hf.
  apply (R_trans (R_world s _ _) (Hf _ _)).
Qed.

Lemma holds_for_of {A} (xs : list A) (body : A -> M World unit) :
  (forall x s, In x xs -> holds R (body x) s) ->
  forall s, holds R (for_of xs body) s.
Proof.
  induction xs as [|x xs IH]; intros Hb s; cbn [for_of].
  - apply holds_ret.
  - apply holds_bind.
    + apply Hb. now left.
    + intros _ _. apply IH. intros y s' Hy. apply Hb. now right.
Qed.

Lemma holds_try_catch {A} (m : M World A) (h : Exn -> M World A) s :
  holds R m s ->
  (forall e, result (m s) = Throw e -> holds R (h e) (store (m s))) ->
  holds R (try_catch m h) s.
Proof.
  unfold holds, try_catch. intros Hm Hh.
  destruct (result (m s)) as [a|e|] eqn:E; cbn in *;
    rewrite ?E; try assumption.
  eapply R_catch; [exact Hm | now apply Hh].
Qed.

(** From the body of the loop to the loop, and to the whole of [start]. *)
Lemma holds_agent_loop (sv : Services World) topic :
  (forall s, holds R (iteration sv topic) s) ->
  forall fuel s, holds R (agent_loop sv topic fuel) s.
Proof.
  intros Hi. induction fuel as [|fuel IH]; intros s; cbn [agent_loop];
    apply holds_get_state; destruct (loop_condition (state s));
    try apply holds_ret.
  - apply holds_out_of_fuel.
  - apply holds_bind; [apply Hi|].
    intros [| |] _; try apply IH. apply holds_ret.
Qed.

Lemma holds_start (sv : Services World) topic fuel s :
  (forall s', holds R (iteration sv topic) s') ->
  (forall s', holds R (degraded_synthesis sv topic) s') ->
  R s [start_event topic] Normal s ->
  (forall s' e, R s' [error_event e] Normal s') ->
  (forall s', R s' [Close] Normal s') ->
  holds R (start sv topic fuel) s.
Proof.
  intros Hi Hd Hs He Hc. unfold start. apply holds_try_catch.
  - apply holds_tell; [exact Hs|].
    apply holds_bind; [now apply holds_agent_loop|].
    intros [| |] _; try apply Hd. apply holds_ret.
  - intros e _. apply holds_tell; [apply He|]. apply holds_tell_last, Hc.
Qed.

End Logic.

(** Walking through a program: [walk prim] splits a goal [holds R m s]
    along the structure of [m]; the hypotheses on [R] are taken from the
    context and what the primitives need is left to [prim]. *)
Ltac unfold_program :=
  unfold iteration, finish_iteration, begin_iteration, degraded_synthesis,
    next_question, execute, and_then, answer_branch, reflect_branch,
    read_branch, search_branch, reflect_one, read_one, search_one,
    synthesizeReport, getAgentAction, callLLM, readUrl, tavilySearch,
    sendEvent.

Ltac walk_step :=
  lazymatch goal with
  | |- holds _ (bind get_state _) _ => apply holds_get_state
  | |- holds _ (bind get_availableUrls _) _ => apply holds_get_availableUrls
  | |- holds _ (bind (tell _) _) _ => apply holds_tell
  | |- holds _ (bind (modify_state _) _) _ => apply holds_modify_state
  | |- holds _ (bind (modify_availableUrls _) _) _ =>
      apply holds_modify_availableUrls
  | |- holds _ (bind (ask _) _) _ => apply holds_ask
  | |- holds _ (bind _ _) _ => apply holds_bind
  | |- holds _ (ret _) _ => apply holds_ret
  | |- holds _ (throw _) _ => apply holds_throw
  | |- holds _ out_of_fuel _ => apply holds_out_of_fuel
  | |- holds _ (tell _) _ => apply holds_tell_last
  | |- holds _ (modify_state _) _ => apply holds_modify_state_last
  | |- holds _ (modify_availableUrls _) _ =>
      apply holds_modify_availableUrls_last
  | |- holds _ (for_of _ _) _ => apply holds_for_of
  | |- holds _ (if ?c then _ else _) _ => destruct c
  | |- holds _ (match ?x with _ => _ end) _ => destruct x
  | |- holds _ _ _ => progress unfold_program
  | |- forall _, _ => intro
  end.

Ltac walk prim :=
  repeat first
    [ assumption
    | match goal with H : forall _, _ |- holds _ _ _ => solve [apply H] end
    | walk_step
    | solve [prim] ].

(** ** Fields the program leaves alone *)

Section Keeps.
Context {World X : Type} (field : AgentState.t -> X).

Lemma keeps_world (s : Store World) urls w st :
  keeps field s [] st (mkStore (state s) urls w).
Proof. reflexivity. Qed.

Lemma keeps_trans (s1 s2 s3 : Store World) t1 t2 st1 st2 st3 :
  keeps field s1 t1 st1 s2 -> keeps field s2 t2 st2 s3 ->
  keeps field s1 (t1 ++ t2) st3 s3.
Proof. unfold keeps. congruence. Qed.

Lemma keeps_refl (s : Store World) t st : keeps field s t st s.
Proof. reflexivity. Qed.

End Keeps.

Ltac keeps_walk :=
  lazymatch goal with
  | |- holds (@keeps ?W ?X ?field) _ _ =>
      pose proof (fun s urls w => @keeps_world W X field s urls w Normal);
      pose proof (fun s1 t1 s2 t2 st s3 =>
                    @keeps_trans W X field s1 s2 s3 t1 t2 Normal st st);
      pose proof (fun s => @keeps_refl W X field s [] Threw);
      walk ltac:(reflexivity)
  end.

Section KeptFields.
Context {World : Type} (sv : Services World).
Implicit Types s : Store World.

Lemma finish_iteration_keeps_step topic a s :
  holds (keeps AgentState.step) (finish_iteration sv topic a) s.
Proof. keeps_walk. Qed.

End KeptFields.

(** ** Quiet computations *)

Section Quiet.
Context {World : Type}.

Lemma quiet_nil : quiet [].
Proof. constructor. Qed.

Lemma quiet_app t1 t2 : quiet t1 -> quiet t2 -> quiet (t1 ++ t2).
Proof. unfold quiet. intros. now apply Forall_app. Qed.

Lemma quiet_app_inv t1 t2 : quiet (t1 ++ t2) -> quiet t1 /\ quiet t2.
Proof. unfold quiet. apply Forall_app. Qed.

Lemma quiet_one e : terminal e = false -> quiet [e].
Proof. intros H. now constructor. Qed.

Lemma stays_quiet_world (s : Store World) urls w :
  stays_quiet s [] Normal (mkStore (state s) urls w).
Proof. apply quiet_nil. Qed.

Lemma stays_quiet_trans (s1 s2 s3 : Store World) t1 t2 st1 st2 :
  stays_quiet s1 t1 st1 s2 -> stays_quiet s2 t2 st2 s3 ->
  stays_quiet s1 (t1 ++ t2) st2 s3.
Proof. apply quiet_app. Qed.

Lemma stays_quiet_throw (s : Store World) : stays_quiet s [] Threw s.
Proof. apply quiet_nil. Qed.

End Quiet.

Ltac quiet_walk :=
  lazymatch goal with
  | |- holds (@stays_quiet ?W) _ _ =>
      pose proof (@stays_quiet_world W);
      pose proof (fun s1 t1 s2 t2 st s3 =>
                    @stays_quiet_trans W s1 s2 s3 t1 t2 Normal st);
      pose proof (@stays_quiet_throw W);
      walk ltac:(first [apply quiet_nil | apply quiet_one; reflexivity])
  end.

Section QuietParts.
Context {World : Type} (sv : Services World).
Implicit Types s : Store World.

Lemma begin_iteration_quiet s : holds stays_quiet (begin_iteration sv) s.
Proof. quiet_walk. Qed.

End QuietParts.

(** ** How computations end *)

Section Ends.
Context {World : Type} (ok : Status -> bool).
Hypothesis ok_normal : ok Normal = true.

Lemma ends_in_world (s : Store World) urls w :
  ends_in ok s [] Normal (mkStore (state s) urls w).
Proof. exact ok_normal. Qed.

Lemma ends_in_trans (s1 s2 s3 : Store World) t1 t2 st1 st2 :
  ends_in ok s1 t1 st1 s2 -> ends_in ok s2 t2 st2 s3 ->
  ends_in ok s1 (t1 ++ t2) st2 s3.
Proof. trivial. Qed.

End Ends.

Ltac ends_walk :=
  lazymatch goal with
  | |- holds (@ends_in ?W ?ok) _ _ =>
      pose proof (@ends_in_world W ok eq_refl);
      pose proof (fun s1 t1 s2 t2 st s3 =>
                    @ends_in_trans W ok s1 s2 s3 t1 t2 Normal st);
      walk ltac:(reflexivity)
  end.

Lemma normal_result {World A} (m : M World A) s :
  holds (ends_in is_normal) m s -> exists a, result (m s) = Ok a.
Proof.
  unfold holds, ends_in. destruct (result (m s)); cbn; try discriminate.
  now exists a.
Qed.

Section EndsParts.
Context {World : Type} (sv : Services World).
Implicit Types s : Store World.

Lemma search_all_normal queries s :
  holds (ends_in is_normal) (for_of queries (search_one sv)) s.
Proof. ends_walk. Qed.

Lemma read_all_normal urls s :
  holds (ends_in is_normal) (for_of urls (read_one sv)) s.
Proof. ends_walk. Qed.

Lemma iteration_not_exhausted topic s :
  holds (ends_in not_exhausted) (iteration sv topic) s.
Proof.
  assert (forall s0 : Store World, ends_in not_exhausted s0 [] Threw s0)
    by reflexivity.
  ends_walk.
Qed.

(** The two calls of the gateway, in full. *)
Lemma getAgentAction_run st urls s :
  getAgentAction sv st urls s
  = mkOutcome
      (match llm_result (fst (llm sv (AgentPrompt st urls) (world s))) with
       | Ok response =>
           Ok (match JSON_parse sv response with
               | Some action => action
               | None => default_action st
               end)
       | Throw e => Throw e
       | OutOfFuel => OutOfFuel
       end)
      (mkStore (state s) (availableUrls s)
         (snd (llm sv (AgentPrompt st urls) (world s))))
      [Invoke GetAgentAction].
Proof.
  unfold getAgentAction, callLLM.
  rewrite bind_tell, bind_assoc, bind_ask.
  destruct (llm sv (AgentPrompt st urls) (world s)) as [[m|n|c] w]; cbn;
    try reflexivity.
  destruct (JSON_parse sv c); reflexivity.
Qed.

Lemma synthesizeReport_run topic knowledge s :
  synthesizeReport sv topic knowledge s
  = mkOutcome
      (llm_result (fst (llm sv (ReportPrompt topic knowledge) (world s))))
      (mkStore (state s) (availableUrls s)
         (snd (llm sv (ReportPrompt topic knowledge) (world s))))
      [Invoke (SynthesizeReport topic knowledge)].
Proof.
  unfold synthesizeReport, callLLM.
  rewrite bind_tell, bind_ask.
  destruct (llm sv (ReportPrompt topic knowledge) (world s)) as [[m|n|c] w];
    reflexivity.
Qed.

End EndsParts.

(** C4, as the code has it.  When the gateway answers the agent prompt
    with a text on which [JSON.parse] throws, [getAgentAction] raises no
    error and returns the default decision: action [search] with the
    current question as its only query.  A text that [JSON.parse] accepts
    is returned as parsed, whatever its shape. *)
Theorem unparseable_response_default {World} (sv : Services World)
    st urls (s : Store World) response w :
  llm sv (AgentPrompt st urls) (world s) = (LLMContent response, w) ->
  (JSON_parse sv response = None ->
   getAgentAction sv st urls s
   = mkOutcome (Ok (default_action st))
       (mkStore (state s) (availableUrls s) w) [Invoke GetAgentAction]
   /\ AgentAction.action (default_action st) = "search"
   /\ AgentAction.searchQueries (default_action st)
      = Some [AgentState.currentQuestion st]) /\
  (forall a,
      JSON_parse sv response = Some a ->
      getAgentAction sv st urls s
      = mkOutcome (Ok a)
          (mkStore (state s) (availableUrls s) w) [Invoke GetAgentAction]).
Proof.
  intros Hllm. rewrite getAgentAction_run, Hllm. cbn.
  split.
  - intros ->. repeat split.
  - intros a ->. reflexivity.
Qed.

Lemma unparseable_response_default_witness :
  let sv := scripted (LLMContent "report") no_results no_content in
  let s := initial "T" [LLMContent prose_text] in
  llm sv (AgentPrompt (state s) []) (world s) = (LLMContent prose_text, []) /\
  JSON_parse sv prose_text = None /\
  getAgentAction sv (state s) [] s
  = mkOutcome
      (Ok (AgentAction.mk "search"
             "Failed to parse previous response, trying a new search"
             (Some ["T"]) None None None))
      (mkStore (state s) [] []) [Invoke GetAgentAction].
Proof.
  intros sv s.
  destruct (@unparseable_response_default _ sv (state s) [] s prose_text []
              eq_refl) as (Hdefault & _).
  split; [reflexivity|]. split; [reflexivity|].
  apply Hdefault. reflexivity.
Defined.

(** C4 as worded fails on a reply that is JSON but not a decision of the
    tagged variant: it is returned as it is, not replaced by the default. *)
Lemma malformed_decision_counterexample :
  let sv := scripted (LLMContent "report") no_results no_content in
  let s := initial "T" [LLMContent unknown_tag_text] in
  JSON_parse sv unknown_tag_text = Some unknown_tag /\
  tagged_variant unknown_tag = false /\
  result (getAgentAction sv (state s) [] s) = Ok unknown_tag /\
  result (getAgentAction sv (state s) [] s) <> Ok (default_action (state s)).
Proof.
  repeat split; try reflexivity. vm_compute. discriminate.
Qed.

(** ** The shape of the traces *)

Section Shapes.
Context {World : Type} (sv : Services World).
Implicit Types s : Store World.

Lemma loop_shape_prefix t0 r t :
  quiet t0 -> loop_shape r t -> loop_shape r (t0 ++ t).
Proof.
  intros H0. destruct r as [[| |]|e|]; cbn.
  - now apply quiet_app.
  - now apply quiet_app.
  - intros (pre & topic & k & ev & -> & Hq & Hk).
    exists (t0 ++ pre), topic, k, ev. rewrite app_assoc.
    repeat split; auto using quiet_app.
  - intros (pre & c & -> & Hq & Hc).
    exists (t0 ++ pre), c. rewrite app_assoc.
    repeat split; auto using quiet_app.
  - now apply quiet_app.
Qed.

Lemma execute_branches topic a :
  (exists queries, execute sv topic a = search_branch sv queries) \/
  (exists urls, execute sv topic a = read_branch sv urls) \/
  (exists gapQuestions, execute sv topic a = reflect_branch gapQuestions) \/
  execute sv topic a = answer_branch sv topic \/
  execute sv topic a = ret Fallthrough.
Proof.
  unfold execute, and_then.
  destruct (String.eqb _ "search"), (AgentAction.searchQueries a); eauto;
    destruct (String.eqb _ "read"), (AgentAction.urlsToRead a); eauto;
    destruct (String.eqb _ "reflect"), (AgentAction.gapQuestions a); eauto 6;
    destruct (String.eqb _ "answer"); eauto 6.
Qed.

(** A computation that ends normally passes on to what follows. *)
Lemma bind_normal {A B} (m : M World A) (f : A -> M World B) s :
  holds (ends_in is_normal) m s ->
  exists a, result (m s) = Ok a /\
            bind m f s = after (trace (m s)) (f a (store (m s))).
Proof.
  intros H. destruct (normal_result H) as [a Ha].
  exists a. split; [assumption|]. now apply bind_ok.
Qed.

Lemma search_branch_result queries s :
  result (search_branch sv queries s) = Ok Fallthrough.
Proof.
  unfold search_branch. rewrite bind_get_state, bind_sendEvent.
  destruct (bind_normal (fun _ => ret Fallthrough) (search_all_normal sv queries s))
    as (a & _ & ->).
  reflexivity.
Qed.

Lemma read_branch_result urls s :
  result (read_branch sv urls s) = Ok Fallthrough.
Proof.
  unfold read_branch. rewrite bind_get_state, bind_sendEvent.
  destruct (bind_normal (fun _ => ret Fallthrough)
              (read_all_normal sv (Js.slice0 MAX_URLS_PER_STEP urls) s))
    as (a & _ & ->).
  reflexivity.
Qed.

Lemma search_branch_quiet queries s :
  holds stays_quiet (search_branch sv queries) s.
Proof. quiet_walk. Qed.

Lemma read_branch_quiet urls s :
  holds stays_quiet (read_branch sv urls) s.
Proof. quiet_walk. Qed.

Lemma reflect_branch_quiet gapQuestions s :
  holds stays_quiet (@reflect_branch World gapQuestions) s.
Proof. quiet_walk. Qed.

Lemma answer_branch_shape topic s :
  loop_shape (result (answer_branch sv topic s)) (trace (answer_branch sv topic s)).
Proof.
  unfold answer_branch. rewrite bind_get_state.
  destruct (Nat.ltb _ 3).
  - rewrite bind_modify_state, bind_get_state, bind_sendEvent. cbn.
    apply quiet_one. reflexivity.
  - rewrite bind_sendEvent.
    erewrite bind_after by apply synthesizeReport_run.
    cbn [result store trace].
    destruct (fst (llm sv _ _)) as [m|n|report];
      cbn [llm_result after result trace].
    + eexists [_], _. split; [reflexivity|].
      split; [apply quiet_one; reflexivity|]. right. eauto.
    + eexists [_], _. split; [reflexivity|].
      split; [apply quiet_one; reflexivity|]. right. eauto.
    + rewrite bind_get_state, bind_sendEvent, bind_tell. cbn.
      eexists [_], _, _, _. split; [reflexivity|].
      split; [apply quiet_one|]; reflexivity.
Qed.

Lemma execute_shape topic a s :
  loop_shape (result (execute sv topic a s)) (trace (execute sv topic a s)).
Proof.
  destruct (execute_branches topic a)
    as [[qs ->]|[[us ->]|[[gs ->]|[->| ->]]]].
  - rewrite search_branch_result. apply search_branch_quiet.
  - rewrite read_branch_result. apply read_branch_quiet.
  - rewrite reflect_branch_run. cbn [result]. rewrite <- reflect_branch_run.
    apply reflect_branch_quiet.
  - apply answer_branch_shape.
  - apply quiet_nil.
Qed.

Lemma finish_iteration_shape topic a s :
  loop_shape (result (finish_iteration sv topic a s))
             (trace (finish_iteration sv topic a s)).
Proof.
  unfold finish_iteration, bind.
  assert (H := execute_shape topic a s).
  destruct (result (execute sv topic a s)) as [[| |]|e|]; cbn in *; trivial.
  - apply quiet_app; [assumption|]. apply quiet_one. reflexivity.
  - now rewrite app_nil_r.
  - destruct H as (pre & tp & k & ev & -> & Hq & Hk).
    exists pre, tp, k, ev. now rewrite app_nil_r.
Qed.

End Shapes.

Section LoopShape.
Context {World : Type} (sv : Services World).
Implicit Types s : Store World.

Lemma throws_at_policy_world s urls w :
  @throws_at_policy World s [] Normal (mkStore (state s) urls w).
Proof. exact I. Qed.

Lemma throws_at_policy_trans s1 t1 s2 t2 st s3 :
  @throws_at_policy World s1 t1 Normal s2 ->
  throws_at_policy s2 t2 st s3 ->
  throws_at_policy s1 (t1 ++ t2) st s3.
Proof.
  intros _. destruct st; cbn; trivial.
  intros [pre ->]. exists (t1 ++ pre). now rewrite app_assoc.
Qed.

Lemma getAgentAction_throws_at_policy st urls s :
  holds throws_at_policy (getAgentAction sv st urls) s.
Proof.
  unfold holds. rewrite getAgentAction_run. cbn.
  destruct (fst (llm sv _ _)); cbn; trivial; now exists [].
Qed.

Lemma begin_iteration_throws_at_policy s :
  holds throws_at_policy (begin_iteration sv) s.
Proof.
  pose proof throws_at_policy_world.
  pose proof throws_at_policy_trans.
  pose proof getAgentAction_throws_at_policy.
  walk ltac:(exact I).
Qed.

Lemma iteration_shape topic s :
  loop_shape (result (iteration sv topic s)) (trace (iteration sv topic s)).
Proof.
  assert (Hq := begin_iteration_quiet sv s).
  assert (Hp := begin_iteration_throws_at_policy s).
  unfold holds, stays_quiet, throws_at_policy in Hq, Hp.
  unfold iteration, bind.
  destruct (result (begin_iteration sv s)) as [a|e|];
    cbn [status result trace store loop_shape] in *.
  - apply loop_shape_prefix; [assumption|apply finish_iteration_shape].
  - destruct Hp as [pre Hpre]. exists pre, GetAgentAction.
    rewrite Hpre in Hq. apply quiet_app_inv in Hq. intuition.
  - contradiction.
Qed.

Lemma agent_loop_shape topic fuel : forall s,
  loop_shape (result (agent_loop sv topic fuel s))
             (trace (agent_loop sv topic fuel s))
  /\ result (agent_loop sv topic fuel s) <> Ok Continue.
Proof.
  induction fuel as [|fuel IH]; intros s;
    destruct (loop_condition (state s)) eqn:Hc;
    try (rewrite agent_loop_exit by assumption; cbn;
         split; [apply quiet_nil | discriminate]).
  - cbn [agent_loop]. rewrite bind_get_state, Hc. cbn.
    split; [apply quiet_nil|discriminate].
  - rewrite agent_loop_enter by assumption.
    assert (Hi := iteration_shape topic s). unfold bind.
    destruct (result (iteration sv topic s)) as [[| |]|e|] eqn:Hr;
      cbn [status result trace store loop_shape ret] in *;
      try (split; [assumption|discriminate]).
    + destruct (IH (store (iteration sv topic s))) as [Hs Hn].
      split; [now apply loop_shape_prefix | assumption].
    + destruct (IH (store (iteration sv topic s))) as [Hs Hn].
      split; [now apply loop_shape_prefix | assumption].
    + split; [|discriminate]. now rewrite app_nil_r.
Qed.

(** Every pass adds one to [step]. *)
Lemma begin_iteration_step s :
  AgentState.step (state (store (begin_iteration sv s)))
  = S (AgentState.step (state s)).
Proof.
  unfold begin_iteration. rewrite bind_modify_state.
  match goal with
  | |- context [store (?m ?s1)] =>
      assert (H : holds (keeps AgentState.step) m s1) by keeps_walk
  end.
  unfold holds, keeps in H. now rewrite H.
Qed.

Lemma iteration_step topic s :
  AgentState.step (state (store (iteration sv topic s)))
  = S (AgentState.step (state s)).
Proof.
  assert (Hb := begin_iteration_step s).
  unfold iteration, bind.
  destruct (result (begin_iteration sv s)) as [a|e|];
    cbn [result store trace]; try assumption.
  assert (Hf := finish_iteration_keeps_step sv topic a (store (begin_iteration sv s))).
  unfold holds, keeps in Hf. now rewrite Hf.
Qed.

(** [MAX_STEPS] passes are enough: the loop is not stopped by the fuel. *)
Lemma agent_loop_fuel topic fuel : forall s,
  MAX_STEPS <= fuel + AgentState.step (state s) ->
  result (agent_loop sv topic fuel s) <> OutOfFuel.
Proof.
  induction fuel as [|fuel IH]; intros s Hfuel;
    destruct (loop_condition (state s)) eqn:Hc;
    try (rewrite agent_loop_exit by assumption; discriminate).
  - unfold loop_condition in Hc. apply andb_prop in Hc as [Hc _].
    apply Nat.ltb_lt in Hc. lia.
  - rewrite agent_loop_enter by assumption.
    assert (Hi := iteration_not_exhausted sv topic s).
    assert (Hs := iteration_step topic s).
    unfold holds, ends_in in Hi. unfold bind.
    destruct (result (iteration sv topic s)) as [[| |]|e|];
      cbn [status result trace store ret not_exhausted] in *;
      try discriminate; apply IH; lia.
Qed.

End LoopShape.

(** ** The end of a run *)

Section RunEnd.
Context {World : Type} (sv : Services World).
Implicit Types s : Store World.

Lemma degraded_synthesis_run topic s :
  let reply := llm sv (ReportPrompt topic (AgentState.knowledge (state s)))
                 (world s) in
  let s' := mkStore (state s) (availableUrls s) (snd reply) in
  let call := Invoke (SynthesizeReport topic (AgentState.knowledge (state s))) in
  degraded_synthesis sv topic s
  = match llm_result (fst reply) with
    | Ok report =>
        mkOutcome (Ok tt) s'
          [depth_reached_event (AgentState.step (state s)); call;
           degraded_answer_event (state s) report; Close]
    | Throw e =>
        mkOutcome (Throw e) s'
          [depth_reached_event (AgentState.step (state s)); call]
    | OutOfFuel =>
        mkOutcome OutOfFuel s'
          [depth_reached_event (AgentState.step (state s)); call]
    end.
Proof.
  intros reply s' call. unfold degraded_synthesis.
  rewrite bind_get_state, bind_sendEvent.
  erewrite bind_after by apply synthesizeReport_run.
  cbn [result store trace]. fold reply. subst s' call.
  destruct (fst reply) as [m|n|report]; cbn [llm_result after trace result store];
    [reflexivity|reflexivity|].
  rewrite bind_get_state, bind_sendEvent.
  unfold bind, tell, after, depth_reached_event, degraded_answer_event,
    run_stats, event; cbn [result store trace state app].
  reflexivity.
Qed.

(** What [start] does, by the way the loop ends. *)
Lemma start_run topic fuel s :
  let l := agent_loop sv topic fuel s in
  let d := degraded_synthesis sv topic (store l) in
  start sv topic fuel s
  = match result l with
    | Ok Return => mkOutcome (Ok tt) (store l) (start_event topic :: trace l)
    | Ok _ =>
        match result d with
        | Ok _ => mkOutcome (Ok tt) (store d) (start_event topic :: trace l ++ trace d)
        | Throw e =>
            mkOutcome (Ok tt) (store d)
              (start_event topic :: (trace l ++ trace d) ++ [error_event e; Close])
        | OutOfFuel =>
            mkOutcome OutOfFuel (store d) (start_event topic :: trace l ++ trace d)
        end
    | Throw e =>
        mkOutcome (Ok tt) (store l)
          (start_event topic :: trace l ++ [error_event e; Close])
    | OutOfFuel => mkOutcome OutOfFuel (store l) (start_event topic :: trace l)
    end.
Proof.
  intros l d. subst d.
  assert (Hl : agent_loop sv topic fuel s = l) by reflexivity.
  clearbody l.
  unfold start, try_catch, bind, sendEvent, tell.
  cbn [result store trace]. rewrite Hl.
  destruct l as [[[| |]|e|] sl tl]; cbn [result store trace ret app];
    rewrite ?app_nil_r; try reflexivity;
    destruct (degraded_synthesis sv topic sl) as [[[]|e|] sd td];
    cbn [result store trace ret app]; rewrite <- ?app_assoc; reflexivity.
Qed.

Lemma start_shape topic fuel s :
  MAX_STEPS <= fuel + AgentState.step (state s) ->
  result (start sv topic fuel s) = Ok tt /\
  run_shape (trace (start sv topic fuel s)).
Proof.
  intros Hfuel. rewrite start_run.
  destruct (agent_loop_shape sv topic fuel s) as [Hshape Hcontinue].
  assert (Hf := agent_loop_fuel sv topic fuel s Hfuel).
  set (l := agent_loop sv topic fuel s) in *.
  assert (Hd : forall t r,
             quiet t -> r = result l -> (r = Ok Fallthrough \/ r = Ok Continue) ->
             quiet (trace l)). { intros t r _ -> [H|H]; rewrite H in Hshape; exact Hshape. }
  destruct (result l) as [[| |]|e|] eqn:Hl; try congruence.
  - (* the condition of the loop became false *)
    cbn in Hshape. rewrite degraded_synthesis_run.
    destruct (fst (llm sv _ _)) as [m|n|report]; cbn [llm_result result trace];
      (split; [reflexivity|]).
    + eexists (start_event topic :: trace l ++ [_]), _, _.
      split; [cbn; rewrite <- !app_assoc; reflexivity|].
      split; [|left; split; [eauto|reflexivity]].
      constructor; [reflexivity|]. apply quiet_app; [assumption|].
      apply quiet_one. reflexivity.
    + eexists (start_event topic :: trace l ++ [_]), _, _.
      split; [cbn; rewrite <- !app_assoc; reflexivity|].
      split; [|left; split; [eauto|reflexivity]].
      constructor; [reflexivity|]. apply quiet_app; [assumption|].
      apply quiet_one. reflexivity.
    + eexists (start_event topic :: trace l ++ [_]), _, _.
      split; [cbn; rewrite <- !app_assoc; reflexivity|].
      split; [|left; split; [eauto|reflexivity]].
      constructor; [reflexivity|]. apply quiet_app; [assumption|].
      apply quiet_one. reflexivity.
  - (* the answer branch returned *)
    cbn in Hshape. destruct Hshape as (pre & tp & k & ev & -> & Hq & Hk).
    split; [reflexivity|].
    exists (start_event topic :: pre), (SynthesizeReport tp k), ev.
    split; [reflexivity|].
    split; [constructor; [reflexivity|assumption]|].
    left. split; [eauto|]. now rewrite Hk.
  - (* an exception reached the catch block *)
    cbn in Hshape. destruct Hshape as (pre & c & -> & Hq & Hc).
    split; [reflexivity|].
    exists (start_event topic :: pre), c, (StreamEvent.mk StreamEvent.error
      (let 'JsError message := e in "Error: " ++ message) None None None).
    split; [cbn; rewrite <- app_assoc; reflexivity|].
    split; [constructor; [reflexivity|assumption]|].
    destruct Hc as [->|Hc]; [right|left]; auto.
Qed.

End RunEnd.

(** ** Budgets *)

Section Budgets.
Context {World : Type} (sv : Services World).
Implicit Types s : Store World.

Lemma begin_iteration_keeps_failedAttempts s :
  holds (keeps AgentState.failedAttempts) (begin_iteration sv) s.
Proof. keeps_walk. Qed.

Lemma execute_failedAttempts topic a s :
  AgentState.failedAttempts (state (store (execute sv topic a s)))
  <= S (AgentState.failedAttempts (state s)).
Proof.
  destruct (execute_branches sv topic a)
    as [[qs ->]|[[us ->]|[[gs ->]|[->| ->]]]].
  - assert (H : holds (keeps AgentState.failedAttempts) (search_branch sv qs) s)
      by keeps_walk.
    unfold holds, keeps in H. rewrite H. lia.
  - assert (H : holds (keeps AgentState.failedAttempts) (read_branch sv us) s)
      by keeps_walk.
    unfold holds, keeps in H. rewrite H. lia.
  - rewrite reflect_branch_run. cbn. lia.
  - unfold answer_branch. rewrite bind_get_state.
    destruct (Nat.ltb _ 3).
    + rewrite bind_modify_state, bind_get_state, bind_sendEvent. cbn. lia.
    + match goal with
      | |- context [store (?m s)] =>
          assert (H : holds (keeps AgentState.failedAttempts) m s) by keeps_walk
      end.
      unfold holds, keeps in H. rewrite H. lia.
  - cbn. lia.
Qed.

Lemma finish_iteration_store topic a s :
  state (store (finish_iteration sv topic a s))
  = state (store (execute sv topic a s)).
Proof.
  unfold finish_iteration, bind.
  destruct (result (execute sv topic a s)) as [[| |]|e|]; reflexivity.
Qed.

Lemma iteration_failedAttempts topic s :
  AgentState.failedAttempts (state (store (iteration sv topic s)))
  <= S (AgentState.failedAttempts (state s)).
Proof.
  assert (Hb := begin_iteration_keeps_failedAttempts s).
  unfold holds, keeps in Hb. unfold iteration, bind.
  destruct (result (begin_iteration sv s)) as [a|e|];
    cbn [result store trace]; try lia.
  rewrite finish_iteration_store, <- Hb. apply execute_failedAttempts.
Qed.

(** The counters stay within the budgets. *)
Lemma agent_loop_budgets topic fuel : forall s,
  AgentState.step (state s) <= MAX_STEPS ->
  AgentState.failedAttempts (state s) <= MAX_FAILED_ATTEMPTS ->
  AgentState.step (state (store (agent_loop sv topic fuel s))) <= MAX_STEPS /\
  AgentState.failedAttempts (state (store (agent_loop sv topic fuel s)))
  <= MAX_FAILED_ATTEMPTS.
Proof.
  induction fuel as [|fuel IH]; intros s Hs Hf;
    destruct (loop_condition (state s)) eqn:Hc;
    try (rewrite agent_loop_exit by assumption; now split).
  - cbn [agent_loop]. rewrite bind_get_state, Hc. now split.
  - rewrite agent_loop_enter by assumption.
    unfold loop_condition in Hc. apply andb_prop in Hc as [Hc1 Hc2].
    apply Nat.ltb_lt in Hc1, Hc2.
    assert (H1 := iteration_step sv topic s).
    assert (H2 := iteration_failedAttempts topic s).
    unfold bind.
    destruct (result (iteration sv topic s)) as [[| |]|e|];
      cbn [result store trace ret]; try (split; lia); apply IH; lia.
Qed.

End Budgets.

(** ** Counting the passes *)

Section Counting.
Context {World : Type} (sv : Services World).
Implicit Types s : Store World.

Lemma progress_count_app t1 t2 :
  progress_count (t1 ++ t2) = progress_count t1 + progress_count t2.
Proof. unfold progress_count. now rewrite filter_app, length_app. Qed.

Lemma progress_count_cons e t :
  progress_count (e :: t)
  = (if is_progress e then 1 else 0) + progress_count t.
Proof. unfold progress_count. cbn. now destruct (is_progress e). Qed.

Lemma counts_steps_world s urls w :
  @counts_steps World s [] Normal (mkStore (state s) urls w).
Proof. unfold counts_steps. cbn. lia. Qed.

Lemma counts_steps_trans s1 t1 s2 t2 st1 st2 s3 :
  @counts_steps World s1 t1 st1 s2 -> counts_steps s2 t2 st2 s3 ->
  counts_steps s1 (t1 ++ t2) st2 s3.
Proof. unfold counts_steps. rewrite progress_count_app. lia. Qed.

Lemma counts_steps_refl s st : @counts_steps World s [] st s.
Proof. unfold counts_steps. cbn. lia. Qed.

Ltac counts_walk :=
  pose proof counts_steps_world;
  pose proof (fun s1 t1 s2 t2 st s3 =>
                @counts_steps_trans s1 t1 s2 t2 Normal st s3);
  pose proof (fun s => counts_steps_refl s Threw);
  walk ltac:(unfold counts_steps; cbn; lia).

Lemma iteration_counts_steps topic s :
  holds counts_steps (iteration sv topic) s.
Proof.
  unfold iteration, begin_iteration, holds.
  rewrite bind_assoc, bind_modify_state. cbv beta.
  rewrite bind_assoc, bind_get_state. cbv beta.
  rewrite bind_assoc, bind_sendEvent. cbv beta.
  match goal with
  | |- context [after _ (?m ?s1)] =>
      assert (H : holds counts_steps m s1) by counts_walk
  end.
  unfold holds, counts_steps in *. cbn [after trace store result status app].
  rewrite H, progress_count_cons.
  match goal with
  | |- context [progress_count (trace ?o)] =>
      generalize (progress_count (trace o))
  end.
  intros n. cbn. lia.
Qed.

Lemma degraded_synthesis_counts_steps topic s :
  holds counts_steps (degraded_synthesis sv topic) s.
Proof. counts_walk. Qed.

Lemma start_counts_steps topic fuel s :
  holds counts_steps (start sv topic fuel) s.
Proof.
  apply holds_start; intros;
    first [ apply iteration_counts_steps
          | apply degraded_synthesis_counts_steps
          | eapply counts_steps_trans; eassumption
          | solve [unfold counts_steps; cbn; lia] ].
Qed.

End Counting.

(** ** The order of the events *)

Section Ordering.
Context {World : Type} (sv : Services World).
Implicit Types s : Store World.

Lemma events_app t1 t2 : events (t1 ++ t2) = events t1 ++ events t2.
Proof. unfold events. apply flat_map_app. Qed.

Lemma event_steps_app t1 t2 :
  event_steps (t1 ++ t2) = event_steps t1 ++ event_steps t2.
Proof. unfold event_steps. rewrite events_app. apply flat_map_app. Qed.

Lemma sorted_app (l1 l2 : list nat) b :
  StronglySorted le l1 -> StronglySorted le l2 ->
  Forall (fun n => n <= b) l1 -> Forall (fun n => b <= n) l2 ->
  StronglySorted le (l1 ++ l2).
Proof.
  intros H1 H2 Hb1 Hb2. induction H1 as [|x l1 Hs IH Hx]; cbn; [assumption|].
  inversion Hb1; subst. constructor; [now apply IH|].
  apply Forall_app. split; [assumption|].
  eapply Forall_impl; [|exact Hb2]. cbn. intros; lia.
Qed.

Lemma steps_ordered_world s urls w :
  @steps_ordered World s [] Normal (mkStore (state s) urls w).
Proof. repeat split; constructor. Qed.

Lemma steps_ordered_refl s st : @steps_ordered World s [] st s.
Proof. repeat split; constructor. Qed.

Lemma steps_ordered_trans s1 t1 s2 t2 st1 st2 s3 :
  @steps_ordered World s1 t1 st1 s2 -> steps_ordered s2 t2 st2 s3 ->
  steps_ordered s1 (t1 ++ t2) st2 s3.
Proof.
  unfold steps_ordered. intros (Hle1 & Hs1 & Hb1) (Hle2 & Hs2 & Hb2).
  rewrite event_steps_app. split; [lia|]. split.
  - apply sorted_app with (b := AgentState.step (state s2)); trivial.
    + eapply Forall_impl; [|exact Hb1]. cbn. intros; lia.
    + eapply Forall_impl; [|exact Hb2]. cbn. intros; lia.
  - apply Forall_app. split.
    + eapply Forall_impl; [|exact Hb1]. cbn. intros; lia.
    + eapply Forall_impl; [|exact Hb2]. cbn. intros; lia.
Qed.

Ltac steps_prim :=
  unfold steps_ordered; cbn; repeat split;
  first [lia | repeat (constructor; try lia)].

Ltac steps_walk :=
  pose proof steps_ordered_world;
  pose proof (fun s1 t1 s2 t2 st s3 =>
                @steps_ordered_trans s1 t1 s2 t2 Normal st s3);
  pose proof (fun s => steps_ordered_refl s Threw);
  walk steps_prim.

Lemma iteration_steps_ordered topic s :
  holds steps_ordered (iteration sv topic) s.
Proof. steps_walk. Qed.

Lemma degraded_synthesis_steps_ordered topic s :
  holds steps_ordered (degraded_synthesis sv topic) s.
Proof. steps_walk. Qed.

Lemma start_steps_ordered topic fuel s :
  AgentState.step (state s) = 0 ->
  holds steps_ordered (start sv topic fuel) s.
Proof.
  intros H0.
  apply holds_start; intros;
    first [ apply iteration_steps_ordered
          | apply degraded_synthesis_steps_ordered
          | eapply steps_ordered_trans; eassumption
          | solve [unfold steps_ordered; cbn; rewrite ?H0; steps_prim] ].
Qed.

End Ordering.

(** ** Complete runs *)

Section Runs.
Context {World : Type} (sv : Services World).
Implicit Types s : Store World.

Lemma start_state topic fuel s :
  state (store (start sv topic fuel s))
  = state (store (agent_loop sv topic fuel s)).
Proof.
  rewrite start_run.
  destruct (result (agent_loop sv topic fuel s)) as [[| |]|e|];
    try reflexivity;
    rewrite degraded_synthesis_run;
    destruct (fst (llm sv _ _)); reflexivity.
Qed.

Lemma quiet_events t :
  quiet t ->
  Forall (fun ev => final_kind (StreamEvent.type ev) = false) (events t).
Proof.
  induction 1 as [|e t He _ IH]; cbn; [constructor|].
  destruct e; cbn; trivial. constructor; assumption.
Qed.




Lemma run_shape_events t :
  run_shape t ->
  exists before final,
    events t = before ++ [final]
    /\ final_kind (StreamEvent.type final) = true
    /\ Forall (fun ev => final_kind (StreamEvent.type ev) = false) before.
Proof.
  intros (pre & c & ev & -> & Hq & Hc).
  exists (events pre), ev. rewrite events_app. repeat split.
  - destruct Hc as [[_ Hk]|[_ Hk]]; [assumption|now rewrite Hk].
  - now apply quiet_events.
Qed.

(** What holds of [start] from a store whose counters are zero, with
    enough fuel. *)
Lemma start_summary topic fuel s :
  MAX_STEPS <= fuel ->
  AgentState.step (state s) = 0 ->
  AgentState.failedAttempts (state s) = 0 ->
  let o := start sv topic fuel s in
  result o = Ok tt /\
  progress_count (trace o) = AgentState.step (state (store o)) /\
  AgentState.step (state (store o)) <= MAX_STEPS /\
  AgentState.failedAttempts (state (store o)) <= MAX_FAILED_ATTEMPTS /\
  run_shape (trace o) /\
  StronglySorted le (event_steps (trace o)).
Proof.
  intros Hfuel Hstep0 Hfailed0 o. subst o.
  destruct (@start_shape _ sv topic fuel s) as [Hres Hshape]; [lia|].
  assert (Hcount := start_counts_steps sv topic fuel s).
  unfold holds, counts_steps in Hcount.
  destruct (@agent_loop_budgets _ sv topic fuel s)
    as [Hstep Hfailed]; [lia..|].
  rewrite <- start_state in Hstep, Hfailed.
  assert (Hsorted := @start_steps_ordered _ sv topic fuel s Hstep0).
  repeat split; trivial; [lia | apply Hsorted].
Qed.

End Runs.

(** C8. In the events of a run, in emission order, the [step] values
    never decrease; the last event is an [answer] or an [error] event, and
    no event before it is. *)
Theorem events_ordered_final_answer_or_error {World} (sv : Services World)
    topic (w : World) :
  StronglySorted le (event_steps (trace (run sv topic w))) /\
  exists before final,
    events (trace (run sv topic w)) = before ++ [final]
    /\ (StreamEvent.type final = StreamEvent.answer
        \/ StreamEvent.type final = StreamEvent.error)
    /\ Forall (fun ev => final_kind (StreamEvent.type ev) = false) before.
Proof.
  destruct (@start_summary _ sv topic MAX_STEPS (initial topic w)
              (le_n _) eq_refl eq_refl) as (_ & _ & _ & _ & Hshape & Hsorted).
  split; [exact Hsorted|].
  destruct (run_shape_events Hshape) as (before & final & He & Hk & Hb).
  exists before, final. repeat split; trivial.
  destruct (StreamEvent.type final); try discriminate; auto.
Qed.




(** ** Sets of strings *)

Section StrSets.
Import Js.StrSet.

Lemma has_app s1 s2 x : has (s1 ++ s2) x = has s1 x || has s2 x.
Proof. unfold has. apply existsb_app. Qed.

Lemma has_add s x : has (add s x) x = true.
Proof.
  unfold add. destruct (has s x) eqn:H; [assumption|].
  rewrite has_app. cbn. rewrite String.eqb_refl. apply orb_true_r.
Qed.

Lemma has_add_mono s x y : has s y = true -> has (add s x) y = true.
Proof.
  intros H. unfold add. destruct (has s x); [assumption|].
  rewrite has_app, H. reflexivity.
Qed.

End StrSets.

(** ** Calls made once *)

Section Fresh.
Context {World : Type}.
Variable seen : AgentState.t -> Js.StrSet.t.
Variable call : Effect -> list string.
Variable made_for : KnowledgeItem.t -> list string.

Lemma news_nil st st' : news seen st st' [].
Proof. split; [intros x []|constructor]. Qed.

Lemma news_app st1 st2 st3 l1 l2 :
  (forall x, Js.StrSet.has (seen st1) x = true ->
             Js.StrSet.has (seen st2) x = true) ->
  (forall x, Js.StrSet.has (seen st2) x = true ->
             Js.StrSet.has (seen st3) x = true) ->
  news seen st1 st2 l1 -> news seen st2 st3 l2 ->
  news seen st1 st3 (l1 ++ l2).
Proof.
  intros G12 G23 [H1 N1] [H2 N2]. split.
  - intros x Hx. apply in_app_or in Hx as [Hx|Hx].
    + destruct (H1 x Hx). auto.
    + destruct (H2 x Hx) as [Hf Ht]. split; [|assumption].
      destruct (Js.StrSet.has (seen st1) x) eqn:E; [|reflexivity].
      apply G12 in E. congruence.
  - apply NoDup_app; trivial.
    intros x Hx1 Hx2. destruct (H1 x Hx1), (H2 x Hx2). congruence.
Qed.

Lemma fresh_world (s : Store World) urls w st :
  fresh seen call made_for s [] st (mkStore (state s) urls w).
Proof.
  split; [auto|]. split; [apply news_nil|].
  exists []. cbn. rewrite app_nil_r. split; [reflexivity|apply news_nil].
Qed.

Lemma fresh_refl (s : Store World) st : fresh seen call made_for s [] st s.
Proof. rewrite <- (store_eta s) at 2. apply fresh_world. Qed.

Lemma fresh_trans (s1 s2 s3 : Store World) t1 t2 st1 st2 :
  fresh seen call made_for s1 t1 st1 s2 ->
  fresh seen call made_for s2 t2 st2 s3 ->
  fresh seen call made_for s1 (t1 ++ t2) st2 s3.
Proof.
  intros (G1 & C1 & new1 & K1 & M1) (G2 & C2 & new2 & K2 & M2).
  split; [auto|]. split.
  - rewrite flat_map_app. now apply news_app with (st2 := state s2).
  - exists (new1 ++ new2). split.
    + rewrite K2, K1. now rewrite app_assoc.
    + rewrite flat_map_app. now apply news_app with (st2 := state s2).
Qed.

(** What [fresh] gives for a string already in the set. *)
Lemma fresh_skips (s s' : Store World) t st x :
  fresh seen call made_for s t st s' ->
  Js.StrSet.has (seen (state s)) x = true ->
  ~ In x (flat_map call t) /\
  Js.StrSet.has (seen (state s')) x = true /\
  exists new,
    AgentState.knowledge (state s') = AgentState.knowledge (state s) ++ new
    /\ ~ In x (flat_map made_for new).
Proof.
  intros (G & [C _] & new & K & [M _]) Hx. repeat split.
  - intros Hin. destruct (C x Hin). congruence.
  - auto.
  - exists new. split; [assumption|].
    intros Hin. destruct (M x Hin). congruence.
Qed.

End Fresh.

Ltac fresh_prim :=
  unfold fresh; cbn; split; [auto|]; split; [apply news_nil|];
  first [ exists []; rewrite app_nil_r; split; [reflexivity|apply news_nil]
        | eexists [_]; split; [reflexivity|apply news_nil] ].

Ltac fresh_walk :=
  lazymatch goal with
  | |- holds (@fresh ?W ?seen ?call ?made_for) _ _ =>
      pose proof (fun s urls w => @fresh_world W seen call made_for s urls w Normal);
      pose proof (fun s1 t1 s2 t2 st s3 =>
                    @fresh_trans W seen call made_for s1 s2 s3 t1 t2 Normal st);
      pose proof (fun s => @fresh_refl W seen call made_for s Threw);
      walk fresh_prim
  end.

(** ** The adapters *)

Section Adapters.
Context {World : Type} (sv : Services World).
Implicit Types s : Store World.

(** [for (const r of results) { if (!availableUrls.includes(r.url)) ... }] *)
Lemma push_urls_run (results : list SearchResult.t) s :
  exists urls,
    for_of results (fun r =>
      urls <- get_availableUrls;;
      if negb (Js.includes urls (SearchResult.url r))
      then modify_availableUrls (fun u => u ++ [SearchResult.url r])
      else ret tt) s
    = mkOutcome (Ok tt) (mkStore (state s) urls (world s)) [].
Proof.
  revert s. induction results as [|r rs IH]; intros s; cbn [for_of].
  - exists (availableUrls s). now rewrite store_eta.
  - rewrite bind_assoc, bind_get_availableUrls. cbv beta.
    destruct (negb _).
    + rewrite bind_modify_availableUrls.
      destruct (IH (mkStore (state s) (availableUrls s ++ [SearchResult.url r])
                      (world s))) as [urls ->].
      now exists urls.
    + rewrite bind_ret. destruct (IH s) as [urls ->]. now exists urls.
Qed.

Lemma tavilySearch_run query s :
  exists results,
    tavilySearch sv query s
    = mkOutcome (Ok results)
        (mkStore (state s) (availableUrls s)
           (snd (tavily_search sv query (world s))))
        [Invoke (TavilySearch query)].
Proof.
  unfold tavilySearch. rewrite bind_tell, bind_ask.
  destruct (fst (tavily_search sv query (world s))) as [|n|[rs|]];
    eexists; reflexivity.
Qed.

(** [readUrl] answers [null] or a text; the text may be empty. *)
Lemma readUrl_run url s :
  exists content,
    readUrl sv url s
    = mkOutcome (Ok content)
        (mkStore (state s) (availableUrls s)
           (snd (tavily_extract sv url (world s))))
        [Invoke (ReadUrl url)].
Proof.
  unfold readUrl. rewrite bind_tell, bind_ask.
  destruct (fst (tavily_extract sv url (world s))) as [|n|[[|r rs]|]];
    eexists; reflexivity.
Qed.

End Adapters.

(** ** One query, one URL *)

Section OneByOne.
Context {World : Type} (sv : Services World).
Implicit Types s : Store World.

(** A query already issued is skipped: nothing happens. *)
Lemma search_one_skip query s :
  Js.StrSet.has (AgentState.searchQueries (state s)) query = true ->
  search_one sv query s = mkOutcome (Ok tt) s [].
Proof.
  intros H. unfold search_one. rewrite bind_get_state, H. reflexivity.
Qed.

(** A new query is recorded and passed to the search service once; at
    most one knowledge item is made, for this query. *)
Lemma search_one_call query s :
  Js.StrSet.has (AgentState.searchQueries (state s)) query = false ->
  exists new urls w evs,
    search_one sv query s
    = mkOutcome (Ok tt)
        (mkStore
           (AgentState.set_knowledge (AgentState.knowledge (state s) ++ new)
              (AgentState.set_searchQueries
                 (Js.StrSet.add (AgentState.searchQueries (state s)) query)
                 (state s)))
           urls w)
        (Invoke (TavilySearch query) :: evs)
    /\ searched evs = [] /\ extracted evs = []
    /\ (new = [] \/
        exists answer sources,
          new = [KnowledgeItem.mk query answer sources KnowledgeItem.search]).
Proof.
  intros H. destruct s as [[o c g0 k v q n tk fa] us w0].
  unfold search_one. rewrite bind_get_state, H.
  rewrite bind_modify_state.
  match goal with
  | |- context [bind (tavilySearch sv query) _ ?s1] =>
      destruct (tavilySearch_run sv query s1) as [results Hr]
  end.
  erewrite bind_after by exact Hr. cbn [result store trace after state world
    availableUrls].
  destruct (Nat.ltb 0 (List.length results)).
  - match goal with
    | |- context [bind (for_of results ?body) _ ?s1] =>
        destruct (push_urls_run results s1) as [urls Hp]
    end.
    erewrite bind_after by exact Hp. cbn [result store trace after].
    rewrite bind_modify_state, bind_get_state.
    eexists [_], urls, _, [_]. split; [reflexivity|].
    repeat split; try reflexivity. right. eauto.
  - eexists [], _, _, [].
    split; [cbn; rewrite app_nil_r; reflexivity|]. repeat split; auto.
Qed.

Lemma search_one_fresh query s :
  holds (fresh AgentState.searchQueries search_call search_item)
    (search_one sv query) s.
Proof.
  unfold holds.
  destruct (Js.StrSet.has (AgentState.searchQueries (state s)) query) eqn:H.
  - rewrite search_one_skip by assumption. apply fresh_refl.
  - destruct (search_one_call query s H)
      as (new & urls & w & evs & -> & Hs & _ & Hnew).
    cbn [result store trace status state]. unfold fresh. cbn.
    fold (searched evs). rewrite Hs.
    assert (Hq : news AgentState.searchQueries (state s)
                   (AgentState.set_knowledge (AgentState.knowledge (state s) ++ new)
                      (AgentState.set_searchQueries
                         (Js.StrSet.add (AgentState.searchQueries (state s)) query)
                         (state s)))
                   [query]).
    { split.
      - intros x [<-|[]]. split; [assumption|]. cbn. apply has_add.
      - repeat constructor. intros []. }
    split; [intros x Hx; now apply has_add_mono|].
    split; [exact Hq|].
    exists new. split; [reflexivity|].
    destruct Hnew as [->|(answer & sources & ->)]; [apply news_nil|exact Hq].
Qed.

(** A URL already visited is skipped: nothing happens. *)
Lemma read_one_skip url s :
  Js.StrSet.has (AgentState.visitedUrls (state s)) url = true ->
  read_one sv url s = mkOutcome (Ok tt) s [].
Proof.
  intros H. unfold read_one. rewrite bind_get_state, H. reflexivity.
Qed.

(** A new URL is recorded and passed to the extract service once; a
    knowledge item is made for it when the text is not empty. *)
Lemma read_one_call url s :
  Js.StrSet.has (AgentState.visitedUrls (state s)) url = false ->
  exists new w ev evs,
    read_one sv url s
    = mkOutcome (Ok tt)
        (mkStore
           (AgentState.set_knowledge (AgentState.knowledge (state s) ++ new)
              (AgentState.set_visitedUrls
                 (Js.StrSet.add (AgentState.visitedUrls (state s)) url)
                 (state s)))
           (availableUrls s) w)
        (Emit ev :: Invoke (ReadUrl url) :: evs)
    /\ searched evs = [] /\ extracted evs = []
    /\ (new = [] \/
        exists text,
          Js.truthy text = true /\
          new = [KnowledgeItem.mk ("Content from " ++ url) text [url]
                   KnowledgeItem.url]).
Proof.
  intros H. destruct s as [[o c g0 k v q n tk fa] us w0].
  unfold read_one. rewrite bind_get_state, H.
  rewrite bind_modify_state, bind_get_state, bind_sendEvent.
  match goal with
  | |- context [bind (readUrl sv url) _ ?s1] =>
      destruct (readUrl_run sv url s1) as [content Hr]
  end.
  erewrite bind_after by exact Hr. cbn [result store trace after state world
    availableUrls].
  destruct content as [text|]; [destruct (Js.truthy text) eqn:Ht|].
  - rewrite bind_modify_state, bind_get_state.
    eexists [_], _, _, [_]. split; [reflexivity|].
    repeat split; try reflexivity. right. eauto.
  - eexists [], _, _, [].
    split; [cbn; rewrite app_nil_r; reflexivity|]. repeat split; auto.
  - eexists [], _, _, [].
    split; [cbn; rewrite app_nil_r; reflexivity|]. repeat split; auto.
Qed.

Lemma read_one_fresh url s :
  holds (fresh AgentState.visitedUrls read_call url_item) (read_one sv url) s.
Proof.
  unfold holds.
  destruct (Js.StrSet.has (AgentState.visitedUrls (state s)) url) eqn:H.
  - rewrite read_one_skip by assumption. apply fresh_refl.
  - destruct (read_one_call url s H)
      as (new & w & ev & evs & -> & _ & He & Hnew).
    cbn [result store trace status state]. unfold fresh. cbn.
    fold (extracted evs). rewrite He.
    assert (Hu : news AgentState.visitedUrls (state s)
                   (AgentState.set_knowledge (AgentState.knowledge (state s) ++ new)
                      (AgentState.set_visitedUrls
                         (Js.StrSet.add (AgentState.visitedUrls (state s)) url)
                         (state s)))
                   [url]).
    { split.
      - intros x [<-|[]]. split; [assumption|]. cbn. apply has_add.
      - repeat constructor. intros []. }
    split; [intros x Hx; now apply has_add_mono|].
    split; [exact Hu|].
    exists new. split; [reflexivity|].
    destruct Hnew as [->|(text & _ & ->)]; [apply news_nil|exact Hu].
Qed.

End OneByOne.

(** ** No query and no URL twice *)

Section NoDuplicates.
Context {World : Type} (sv : Services World).
Implicit Types s : Store World.

Lemma execute_fresh_search topic a s :
  holds (fresh AgentState.searchQueries search_call search_item)
    (execute sv topic a) s.
Proof. pose proof (search_one_fresh sv). fresh_walk. Qed.

Lemma iteration_fresh_search topic s :
  holds (fresh AgentState.searchQueries search_call search_item)
    (iteration sv topic) s.
Proof. pose proof (search_one_fresh sv). fresh_walk. Qed.

Lemma degraded_synthesis_fresh_search topic s :
  holds (fresh AgentState.searchQueries search_call search_item)
    (degraded_synthesis sv topic) s.
Proof. fresh_walk. Qed.


Lemma iteration_fresh_read topic s :
  holds (fresh AgentState.visitedUrls read_call url_item)
    (iteration sv topic) s.
Proof. pose proof (read_one_fresh sv). fresh_walk. Qed.

Lemma degraded_synthesis_fresh_read topic s :
  holds (fresh AgentState.visitedUrls read_call url_item)
    (degraded_synthesis sv topic) s.
Proof. fresh_walk. Qed.

Lemma agent_loop_fresh_search topic fuel s :
  holds (fresh AgentState.searchQueries search_call search_item)
    (agent_loop sv topic fuel) s.
Proof.
  apply holds_agent_loop; intros;
    first [ apply iteration_fresh_search
          | apply fresh_world | apply fresh_refl
          | eapply fresh_trans; eassumption ].
Qed.


Lemma start_fresh_search topic fuel s :
  holds (fresh AgentState.searchQueries search_call search_item)
    (start sv topic fuel) s.
Proof.
  apply holds_start; intros;
    first [ apply iteration_fresh_search
          | apply degraded_synthesis_fresh_search
          | apply fresh_world | apply fresh_refl
          | eapply fresh_trans; eassumption
          | solve [fresh_prim] ].
Qed.

Lemma start_fresh_read topic fuel s :
  holds (fresh AgentState.visitedUrls read_call url_item)
    (start sv topic fuel) s.
Proof.
  apply holds_start; intros;
    first [ apply iteration_fresh_read
          | apply degraded_synthesis_fresh_read
          | apply fresh_world | apply fresh_refl
          | eapply fresh_trans; eassumption
          | solve [fresh_prim] ].
Qed.

End NoDuplicates.

Section ReadDecision.
Context {World : Type} (sv : Services World).
Implicit Types s : Store World.











End ReadDecision.

Section NoRepeat.
Context {World : Type} (sv : Services World).
Implicit Types s : Store World.

Lemma start_no_repeat topic fuel s :
  AgentState.knowledge (state s) = [] ->
  let o := start sv topic fuel s in
  NoDup (searched (trace o)) /\
  NoDup (flat_map search_item (AgentState.knowledge (state (store o)))) /\
  NoDup (extracted (trace o)) /\
  NoDup (flat_map url_item (AgentState.knowledge (state (store o)))).
Proof.
  intros Hk o. subst o.
  destruct (start_fresh_search sv topic fuel s)
    as (_ & [_ Hs] & new1 & K1 & [_ N1]).
  destruct (start_fresh_read sv topic fuel s)
    as (_ & [_ Hr] & new2 & K2 & [_ N2]).
  rewrite Hk in K1, K2. cbn [app] in K1, K2.
  repeat split; trivial.
  - now rewrite K1.
  - now rewrite K2.
Qed.

End NoRepeat.

(** C6. A query that is already in [searchQueries] is skipped: the search
    service is not called for it and no knowledge item is made for it,
    nothing at all happens.  This holds within a dispatch and through all
    later passes of the loop, where the query also stays in the set; in a
    whole run no query is passed to the search service twice and no two
    knowledge items of kind [search] are made for the same query. *)
Theorem no_duplicate_search {World} (sv : Services World) :
  (forall query (s : Store World),
      Js.StrSet.has (AgentState.searchQueries (state s)) query = true ->
      search_one sv query s = mkOutcome (Ok tt) s []) /\
  (forall topic a query (s : Store World),
      Js.StrSet.has (AgentState.searchQueries (state s)) query = true ->
      let o := execute sv topic a s in
      ~ In query (searched (trace o)) /\
      Js.StrSet.has (AgentState.searchQueries (state (store o))) query = true /\
      exists new,
        AgentState.knowledge (state (store o))
        = AgentState.knowledge (state s) ++ new
        /\ ~ In query (flat_map search_item new)) /\
  (forall topic fuel query (s : Store World),
      Js.StrSet.has (AgentState.searchQueries (state s)) query = true ->
      let o := agent_loop sv topic fuel s in
      ~ In query (searched (trace o)) /\
      Js.StrSet.has (AgentState.searchQueries (state (store o))) query = true /\
      exists new,
        AgentState.knowledge (state (store o))
        = AgentState.knowledge (state s) ++ new
        /\ ~ In query (flat_map search_item new)) /\
  (forall topic (w : World),
      NoDup (searched (trace (run sv topic w))) /\
      NoDup (flat_map search_item
               (AgentState.knowledge (state (store (run sv topic w)))))).
Proof.
  split; [apply search_one_skip|].
  split.
  { intros topic a query s H o. subst o.
    assert (Hf := execute_fresh_search sv topic a s).
    unfold holds in Hf. eapply fresh_skips in Hf; [exact Hf|exact H]. }
  split.
  { intros topic fuel query s H o. subst o.
    assert (Hf := agent_loop_fresh_search sv topic fuel s).
    unfold holds in Hf. eapply fresh_skips in Hf; [exact Hf|exact H]. }
  intros topic w.
  destruct (@start_no_repeat _ sv topic MAX_STEPS (initial topic w) eq_refl)
    as (H1 & H2 & _).
  split; assumption.
Qed.

Lemma no_duplicate_search_witness :
  let sv := scripted (LLMContent "report") one_result no_content in
  let s0 := initial "T" [] in
  let s1 := store (execute sv "T" search_q_q s0) in
  searched (trace (execute sv "T" search_q_q s0)) = ["q"] /\
  Js.StrSet.has (AgentState.searchQueries (state s1)) "q" = true /\
  search_one sv "q" s1 = mkOutcome (Ok tt) s1 [] /\
  ~ In "q" (searched (trace (execute sv "T" search_q_q s1))) /\
  AgentState.knowledge (state (store (execute sv "T" search_q_q s1)))
  = AgentState.knowledge (state s1).
Proof.
  intros sv s0 s1.
  destruct (@no_duplicate_search _ sv) as (Hskip & Hexec & _ & _).
  assert (Hq : Js.StrSet.has (AgentState.searchQueries (state s1)) "q" = true)
    by reflexivity.
  split; [reflexivity|]. split; [exact Hq|].
  split; [exact (Hskip "q" s1 Hq)|].
  split; [exact (proj1 (Hexec "T" search_q_q "q" s1 Hq))|].
  reflexivity.
Defined.



(** ** The original question *)

(** What the re-append does guarantee: at the end of a step that
    processed a [reflect] decision, the original question is queued. *)
Lemma reflect_queues_original {World} gapQuestions (s : Store World) :
  has_original (state (store (reflect_branch gapQuestions s))) = true.
Proof.
  rewrite reflect_branch_run. unfold has_original, reflected. cbn.
  destruct (existsb _ (AgentState.gaps (state s) ++ gapQuestions)) eqn:E.
  - exact E.
  - rewrite existsb_app. cbn. rewrite String.eqb_refl.
    now rewrite orb_true_r.
Qed.

(** C1 fails on the code.  The second [reflect] finds the original
    question still queued, behind [A], and does not move it to the end;
    [B] is queued after it.  The loop then takes [A], the original
    question and [B] in turn: at the end of step 5 the queue is empty and
    the current question is [B], and so it stays to the end of the run. *)
Lemma original_question_dropped :
  let sv := scripted (LLMContent "report") no_results no_content in
  let s0 := initial "T" two_reflections in
  map GapQuestion.question (AgentState.gaps (state (store (agent_loop sv "T" 2 s0))))
  = ["A"; "T"; "B"] /\
  original_kept (state (store (agent_loop sv "T" 4 s0))) = true /\
  AgentState.gaps (state (store (agent_loop sv "T" 5 s0))) = [] /\
  AgentState.currentQuestion (state (store (agent_loop sv "T" 5 s0))) = "B" /\
  original_kept (state (store (agent_loop sv "T" 5 s0))) = false /\
  original_kept (state (store (run sv "T" two_reflections))) = false.
Proof.
  vm_compute. repeat split.
Qed.
